(** * Steady-state radiant-floor solver: a shallow embedding of the
      [results] computation of the simulator component

    The embedded code is the body of the memoised [results] callback: layer
    stack, automatic pipe placement, adaptive vertical grid, per-row
    conductivity, pipe mask, loop thermal model, relaxation sweeps and the
    flux metrics.  JavaScript numbers are modelled as real numbers (type
    [R]): every arithmetic operation is the exact one, rounding of IEEE
    doubles is not modelled.  Typed arrays are lists updated by index; every
    read of the solve is within the array, so the default of a total lookup
    is never observed.
    Besides the solve, the comfort and hydraulic metrics, the write-back of
    the automatic return temperature, the colour map, the pointer sampling
    of the field, the isotherm edge crossing and the trimming of formatted
    numbers are embedded.  The canvas drawing, the chart profile strings
    and the React widgets are left out. *)

From stdpp Require Import base decidable list strings.
From Stdlib Require Import Reals Lra Lia ZArith Ascii.

Open Scope R_scope.

#[local] Instance R_inhabited : Inhabited R := populate 0.
#[local] Instance Rle_decision (a b : R) : Decision (a <= b) := Rle_dec a b.
#[local] Instance Rlt_decision (a b : R) : Decision (a < b) := Rlt_dec a b.
#[local] Instance Req_decision (a b : R) : Decision (a = b) := Req_dec_T a b.

(** ** Numeric primitives of the host language *)

Module JS.

(** [Math.max] and [Math.min] on two numbers. *)
Definition max (a b : R) : R := Rmax a b.
Definition min (a b : R) : R := Rmin a b.

(** [Math.min(...xs)]: the least element, folded from the first one.  The
    empty list (which gives [Infinity] in the host language) does not occur
    in the solve. *)
Definition minOf (xs : list R) : R :=
  match xs with
  | [] => 0
  | x :: r => fold_left Rmin r x
  end.

(** [Math.round]: nearest integer, ties towards plus infinity. *)
Definition round (x : R) : Z := Zfloor (x + 1/2).

(** [Math.hypot] on two arguments. *)
Definition hypot (a b : R) : R := sqrt (a * a + b * b).

(** [Math.pow] for a non-negative base and a positive exponent; the base
    [0] gives [0]. *)
Definition pow (x y : R) : R :=
  if Rle_dec x 0 then 0 else Rpower x y.

(** [Math.log] and [Math.exp]. *)
Definition log (x : R) : R := ln x.

(** A store into an [Int8Array] keeps the value modulo 256 in
    [-128, 127]. *)
Definition toInt8 (z : Z) : Z := ((z + 128) mod 256 - 128)%Z.

(** [+(x.toFixed(d))]: [x] rounded to [d] decimals, ties away from zero. *)
Definition toFixed (d : nat) (x : R) : R :=
  if Rlt_dec x 0
  then - (IZR (Zfloor (- x * 10 ^ d + 1/2)) / 10 ^ d)
  else IZR (Zfloor (x * 10 ^ d + 1/2)) / 10 ^ d.

(** [v ?? d] on an optional numeric field. *)
Definition orElse (v : option R) (d : R) : R :=
  match v with Some x => x | None => d end.

(** [v || 0] on an optional numeric field: a missing field and [0] both
    give [0]. *)
Definition orZero (v : option R) : R := orElse v 0.

(** [v > 0] on an optional numeric field: a missing field compares
    false. *)
Definition isPositive (v : option R) : bool :=
  match v with
  | Some x => if Rlt_dec 0 x then true else false
  | None => false
  end.

End JS.

(** ** Material presets and the parameter set *)

Record ScreedPreset := { screed_id : string; screed_k : R }.
Record LayerPreset := { layer_id : string; layer_t : R; layer_k : R }.
Record UnderlayPreset := {
  under_id : string;
  under_type : string;
  under_t : option R;
  under_eps : option R;
  under_phi : option R
}.

Definition screed_wet : ScreedPreset := {| screed_id := "wet"; screed_k := 0.80 |}.
Definition screed_semi : ScreedPreset := {| screed_id := "semi"; screed_k := 0.46 |}.
Definition screed_anhydrite : ScreedPreset :=
  {| screed_id := "anhydrite"; screed_k := 1.60 |}.
Definition screed_high : ScreedPreset := {| screed_id := "high"; screed_k := 1.50 |}.
Definition PRESETS_SCREED : list ScreedPreset :=
  [screed_wet; screed_semi; screed_anhydrite; screed_high].

Definition cover_tile : LayerPreset :=
  {| layer_id := "tile"; layer_t := 0.014; layer_k := 1.10 |}.
Definition cover_laminate8 : LayerPreset :=
  {| layer_id := "laminate8"; layer_t := 0.010; layer_k := 0.11 |}.
Definition cover_wood20 : LayerPreset :=
  {| layer_id := "wood20"; layer_t := 0.020; layer_k := 0.15 |}.
Definition cover_vinyl5 : LayerPreset :=
  {| layer_id := "vinyl5"; layer_t := 0.005; layer_k := 0.25 |}.
Definition cover_none : LayerPreset :=
  {| layer_id := "none"; layer_t := 0.0; layer_k := 99.0 |}.
Definition PRESETS_COVER : list LayerPreset :=
  [cover_tile; cover_laminate8; cover_wood20; cover_vinyl5; cover_none].

Definition insul_eps30 : LayerPreset :=
  {| layer_id := "eps30"; layer_t := 0.03; layer_k := 0.035 |}.
Definition insul_eps50 : LayerPreset :=
  {| layer_id := "eps50"; layer_t := 0.05; layer_k := 0.035 |}.
Definition insul_eps100 : LayerPreset :=
  {| layer_id := "eps100"; layer_t := 0.10; layer_k := 0.035 |}.
Definition insul_xps50 : LayerPreset :=
  {| layer_id := "xps50"; layer_t := 0.05; layer_k := 0.030 |}.
Definition insul_none : LayerPreset :=
  {| layer_id := "none"; layer_t := 0.0; layer_k := 1.0 |}.
Definition PRESETS_INSULATION : list LayerPreset :=
  [insul_eps30; insul_eps50; insul_eps100; insul_xps50; insul_none].

Definition under_none : UnderlayPreset :=
  {| under_id := "none"; under_type := "none"; under_t := Some 0;
     under_eps := None; under_phi := None |}.
Definition under_foil : UnderlayPreset :=
  {| under_id := "foil"; under_type := "foil"; under_t := Some 0;
     under_eps := None; under_phi := None |}.
Definition under_bubble5 : UnderlayPreset :=
  {| under_id := "bubble5"; under_type := "bubble"; under_t := Some 0.005;
     under_eps := Some 0.05; under_phi := None |}.
Definition under_mat50 : UnderlayPreset :=
  {| under_id := "mat50"; under_type := "mat"; under_t := None;
     under_eps := None; under_phi := Some 0.50 |}.
Definition under_mat33 : UnderlayPreset :=
  {| under_id := "mat33"; under_type := "mat"; under_t := None;
     under_eps := None; under_phi := Some 0.33 |}.
Definition PRESETS_UNDERLAY : list UnderlayPreset :=
  [under_none; under_foil; under_bubble5; under_mat50; under_mat33].

(** The object handed to the solve ([debounced]). *)
Record Params := {
  Tair : R; Ts : R; Tr : R;
  spacing : R; pipeOD : R; screedThk : R;
  hTop : R; belowT : R; airVel : R;
  screed : ScreedPreset; cover : LayerPreset;
  under : UnderlayPreset; insul : LayerPreset;
  nPipes : nat; layout : string;
  loopLength : R; loopPosFrac : R;
  useFixedArea : bool; areaM2 : R;
  fixScale : bool; autoReturn : bool; flowLpm : R; contrast : R
}.

(** The component's initial state: the parameter set of the first solve. *)
Definition defaultParams : Params :=
  {| Tair := 22; Ts := 45; Tr := 40;
     spacing := 0.15; pipeOD := 0.016; screedThk := 0.050;
     hTop := 10; belowT := 18; airVel := 0;
     screed := screed_semi; cover := cover_tile;
     under := under_none; insul := insul_eps100;
     nPipes := 3; layout := "spiral";
     loopLength := 80; loopPosFrac := 0.5;
     useFixedArea := true; areaM2 := 9;
     fixScale := false; autoReturn := false; flowLpm := 1.5; contrast := 1.6 |}.

(** The state setters of the component, on the parameter set. *)
Definition setCover (c : LayerPreset) (p : Params) : Params :=
  {| Tair := Tair p; Ts := Ts p; Tr := Tr p;
     spacing := spacing p; pipeOD := pipeOD p; screedThk := screedThk p;
     hTop := hTop p; belowT := belowT p; airVel := airVel p;
     screed := screed p; cover := c; under := under p; insul := insul p;
     nPipes := nPipes p; layout := layout p;
     loopLength := loopLength p; loopPosFrac := loopPosFrac p;
     useFixedArea := useFixedArea p; areaM2 := areaM2 p;
     fixScale := fixScale p; autoReturn := autoReturn p;
     flowLpm := flowLpm p; contrast := contrast p |}.

Definition setUnder (u : UnderlayPreset) (p : Params) : Params :=
  {| Tair := Tair p; Ts := Ts p; Tr := Tr p;
     spacing := spacing p; pipeOD := pipeOD p; screedThk := screedThk p;
     hTop := hTop p; belowT := belowT p; airVel := airVel p;
     screed := screed p; cover := cover p; under := u; insul := insul p;
     nPipes := nPipes p; layout := layout p;
     loopLength := loopLength p; loopPosFrac := loopPosFrac p;
     useFixedArea := useFixedArea p; areaM2 := areaM2 p;
     fixScale := fixScale p; autoReturn := autoReturn p;
     flowLpm := flowLpm p; contrast := contrast p |}.

Definition setScreedThk (v : R) (p : Params) : Params :=
  {| Tair := Tair p; Ts := Ts p; Tr := Tr p;
     spacing := spacing p; pipeOD := pipeOD p; screedThk := v;
     hTop := hTop p; belowT := belowT p; airVel := airVel p;
     screed := screed p; cover := cover p; under := under p; insul := insul p;
     nPipes := nPipes p; layout := layout p;
     loopLength := loopLength p; loopPosFrac := loopPosFrac p;
     useFixedArea := useFixedArea p; areaM2 := areaM2 p;
     fixScale := fixScale p; autoReturn := autoReturn p;
     flowLpm := flowLpm p; contrast := contrast p |}.

Definition setTs (v : R) (p : Params) : Params :=
  {| Tair := Tair p; Ts := v; Tr := Tr p;
     spacing := spacing p; pipeOD := pipeOD p; screedThk := screedThk p;
     hTop := hTop p; belowT := belowT p; airVel := airVel p;
     screed := screed p; cover := cover p; under := under p; insul := insul p;
     nPipes := nPipes p; layout := layout p;
     loopLength := loopLength p; loopPosFrac := loopPosFrac p;
     useFixedArea := useFixedArea p; areaM2 := areaM2 p;
     fixScale := fixScale p; autoReturn := autoReturn p;
     flowLpm := flowLpm p; contrast := contrast p |}.

Definition setTr (v : R) (p : Params) : Params :=
  {| Tair := Tair p; Ts := Ts p; Tr := v;
     spacing := spacing p; pipeOD := pipeOD p; screedThk := screedThk p;
     hTop := hTop p; belowT := belowT p; airVel := airVel p;
     screed := screed p; cover := cover p; under := under p; insul := insul p;
     nPipes := nPipes p; layout := layout p;
     loopLength := loopLength p; loopPosFrac := loopPosFrac p;
     useFixedArea := useFixedArea p; areaM2 := areaM2 p;
     fixScale := fixScale p; autoReturn := autoReturn p;
     flowLpm := flowLpm p; contrast := contrast p |}.

Definition setLayout (v : string) (p : Params) : Params :=
  {| Tair := Tair p; Ts := Ts p; Tr := Tr p;
     spacing := spacing p; pipeOD := pipeOD p; screedThk := screedThk p;
     hTop := hTop p; belowT := belowT p; airVel := airVel p;
     screed := screed p; cover := cover p; under := under p; insul := insul p;
     nPipes := nPipes p; layout := v;
     loopLength := loopLength p; loopPosFrac := loopPosFrac p;
     useFixedArea := useFixedArea p; areaM2 := areaM2 p;
     fixScale := fixScale p; autoReturn := autoReturn p;
     flowLpm := flowLpm p; contrast := contrast p |}.

(** The horizontal node count of the component. *)
Definition NX : nat := 144.

(** ** Loops and array helpers *)

(** [for (let i = lo; i < hi; i++) body]: the loop body threads the state
    it mutates. *)
Definition for_ {A : Type} (lo hi : nat) (body : nat -> A -> A) (a : A) : A :=
  fold_left (fun acc i => body i acc) (seq lo (hi - lo)) a.

(** [arr.fill(v, lo, hi)] on a typed array. *)
Definition fill (v : R) (lo hi : nat) (arr : list R) : list R :=
  for_ lo hi (fun c a => <[c := v]> a) arr.

(** Node [(i, j)] of the row-major field. *)
Definition idx (i j : nat) : nat := j * NX + i.

(** ** Loop thermal model *)

Definition computePipeTemperatures
    (n : nat) (Ts Tr : R) (layout : string) (Tair L x S_ : R) : list R :=
  if (n <=? 1)%nat then [0.5 * (Ts + Tr)] else
  let num := JS.max 1e-6 (Ts - Tair) in
  let den := JS.max 1e-6 (Tr - Tair) in
  let alpha := JS.max 1e-6 (JS.log (num / den) / JS.max 1e-6 L) in
  let deltaAdj := if decide (layout = "spiral") then 2.0 else 3.0 in
  if decide (layout = "meander") then
    let clamp := fun v : R => JS.max 0 (JS.min L v) in
    let Ts_at := fun s : R => Tair + (Ts - Tair) * exp (- alpha * clamp s) in
    let left := Ts_at (x - deltaAdj) in
    let mid := Ts_at x in
    let right := Ts_at (x + deltaAdj) in
    take n [left; mid; right]
  else
    let clamp := fun v : R => JS.max 0 (JS.min L v) in
    let Ts_at := fun s : R => Tair + (Ts - Tair) * exp (- alpha * clamp s) in
    let Tr_at := fun s : R => Tair + (Ts - Tair) * exp (- alpha * clamp (L - s)) in
    let left := Ts_at (x - deltaAdj) in
    let mid := Tr_at x in
    let right := Ts_at (x + deltaAdj) in
    take n [left; mid; right].

(** ** The solve, up to the grid *)

Section Solve.

Variable p : Params.

Definition S_ : R := JS.max 0.08 (JS.min 0.40 (spacing p)).
Definition D : R := JS.max 0.012 (JS.min 0.020 (pipeOD p)).
Definition twm : R := 0.5 * (Ts p + Tr p).

Definition tCover : R := layer_t (cover p).
Definition tScreed : R := JS.max (screedThk p) 0.02.

(** The branch taken for a bubble-foil underlay with a positive gap. *)
Definition isBubble : bool :=
  bool_decide (under_type (under p) = "bubble") && JS.isPositive (under_t (under p)).

Definition tUnder : R :=
  if isBubble then JS.orZero (under_t (under p)) else 0.

(** Equivalent conductivity of a bubble-foil gap of thickness [tGap]. *)
Definition Rair_base (tGap : R) : R := 0.11 * (tGap / 0.01).
Definition rad_factor : R := 1.6.
Definition Rgap (tGap : R) : R := Rair_base tGap * rad_factor.
Definition kBubble (tGap : R) : R := JS.max 0.002 (tGap / Rgap tGap).

Definition kUnder : R :=
  if isBubble then kBubble (JS.orZero (under_t (under p))) else 1.

Definition tIns : R := layer_t (insul p).
Definition totalH : R := tCover + tScreed + tUnder + tIns.

(** Automatic pipe placement. *)
Definition yUnderTop : R := tCover + tScreed.
Definition yInsulTop : R := tCover + tScreed + tUnder.
Definition minCover : R := 0.02.
Definition limitByScreed : R := JS.max 0 (tScreed - D).
Definition limitByCover : R := JS.max 0 (yInsulTop - minCover - D).
Definition maxDBot : R := JS.max 0 (JS.min limitByScreed limitByCover).
Definition dBotUser : R := 0.
Definition dBotRaw : R :=
  JS.max dBotUser
    (if bool_decide (under_type (under p) ≠ "none")
     then JS.orZero (under_t (under p)) else 0).
Definition dBot : R := JS.min dBotRaw maxDBot.
Definition pipeBottomY : R := yInsulTop - dBot.
Definition pipeCenterY : R := pipeBottomY - 0.5 * D.
Definition pipeTopY : R := pipeCenterY - 0.5 * D.

Definition nCenters : nat := Nat.max 1 (nPipes p).
Definition W : R := INR nCenters * S_.
Definition pipeCenters : list (R * R) :=
  map (fun k : nat => ((INR k + 0.5) * S_, pipeCenterY)) (seq 0 nCenters).

(** Adaptive vertical resolution. *)
Definition baseNY : R := 80.
Definition dyBase : R := totalH / JS.max 2 (baseNY - 1).
Definition dyLimits : list R :=
  [dyBase]
  ++ (if Rlt_dec 0 tCover then [tCover / 6] else [])
  ++ [tScreed / 30]
  ++ (if Rlt_dec 0 tUnder then [tUnder / 4] else [])
  ++ (if Rlt_dec 0 tIns then [tIns / 10] else []).
Definition dyTarget : R :=
  JS.max 1e-5 (JS.minOf dyLimits).
Definition NYz : Z :=
  Z.max 3 (Z.min 300 (JS.round (totalH / dyTarget) + 1)).
Definition NY : nat := Z.to_nat NYz.

Definition dx : R := W / (INR NX - 1).
Definition dy : R := totalH / (INR NY - 1).

End Solve.

(** ** Conductivity rows, pipe mask, pipe temperatures *)

Section Fields.

Variable p : Params.

(** The conductivity the row loop assigns at depth [y]. *)
Definition kAt (y : R) : R :=
  if Rle_dec y (tCover p) then
    (if Req_dec_T (layer_t (cover p)) 0 then screed_k (screed p) else layer_k (cover p))
  else if Rle_dec y (tCover p + tScreed p) then screed_k (screed p)
  else if Rle_dec y (tCover p + tScreed p + tUnder p) then kUnder p
  else (if Rlt_dec 0 (layer_t (insul p)) then layer_k (insul p) else screed_k (screed p)).

Definition kRow : list R :=
  for_ 0 (NY p) (fun j a => <[j := kAt (INR j * dy p)]> a) (replicate (NY p) 0).

(** The seeding loop of the temperature field, on the buffer [buf] it is
    given: every row is filled with the linear interpolation between air
    (top) and below-insulation temperature (bottom). *)
Definition seedField (buf : list R) : list R :=
  for_ 0 (NY p)
    (fun j a =>
       let frac := 1 - INR j / (INR (NY p) - 1) in
       let Tv := belowT p * (1 - frac) + Tair p * frac in
       fill Tv (j * NX) ((j + 1) * NX) a)
    buf.

(** [new Float64Array(NX*NY)] is all zeros; the field starts as its
    seeding. *)
Definition T_init : list R := seedField (replicate (NX * NY p) 0).

Definition r : R := 0.5 * D p.

(** The inner loop over the pipe centres: the first centre within [r] of
    the node, if any. *)
Definition pipeHit (x y : R) : option nat :=
  fst <$> list_find (fun pc : R * R => JS.hypot (x - fst pc) (y - snd pc) <= r)
            (pipeCenters p).

(** The body of the two mask loops at node [(i, j)], on the pair
    (pipeMask, pipeLabel). *)
Definition markNode (i j : nat) (ml : list nat * list Z) : list nat * list Z :=
  match pipeHit (INR i * dx p) (INR j * dy p) with
  | Some k => (<[idx i j := 1%nat]> (fst ml),
               <[idx i j := JS.toInt8 (Z.of_nat k)]> (snd ml))
  | None => ml
  end.

Definition pipeArrays : list nat * list Z :=
  for_ 1 (NY p - 1)
    (fun j ml => for_ 1 (NX - 1) (fun i ml' => markNode i j ml') ml)
    (replicate (NX * NY p) 0%nat, replicate (NX * NY p) (-1)%Z).

Definition pipeMask : list nat := fst pipeArrays.
Definition pipeLabel : list Z := snd pipeArrays.

Definition iters : nat := 1200.
Definition omega : R := 1.85.
Definition hEff : R := hTop p + 6.0 * JS.pow (JS.max 0 (airVel p)) 0.6.

Definition L_eff : R :=
  JS.max 5 (if useFixedArea p
            then JS.max 1e-3 (areaM2 p) / JS.max 0.02 (S_ p)
            else loopLength p).
Definition xPos : R :=
  JS.max 0 (JS.min 0.5 (loopPosFrac p)) * JS.max 1e-6 L_eff.
Definition TpipeArr : list R :=
  computePipeTemperatures (length (pipeCenters p)) (Ts p) (Tr p) (layout p)
    (Tair p) L_eff xPos (S_ p).
Definition alphaDbg : R :=
  JS.max 1e-6
    (JS.log (JS.max 1e-6 (Ts p - Tair p) / JS.max 1e-6 (Tr p - Tair p))
     / JS.max 1e-6 L_eff).

End Fields.

(** ** Relaxation sweeps *)

Section Relaxation.

Variable p : Params.

(** The boundary temperature of the pipe that owns node [c]. *)
Definition TpipeOf (c : nat) : R :=
  let label := pipeLabel p !!! c in
  if (0 <=? label)%Z
  then TpipeArr p !!!
         Z.to_nat (Z.max 0 (Z.min (Z.of_nat (length (TpipeArr p)) - 1) label))
  else twm p.

(** The value stored at a pipe node: the pipe temperature, or for a
    mounting mat its blend with a thin-gap Robin value. *)
Definition pipeNodeValue (T : list R) (i j : nat) : R :=
  let Tpipe := TpipeOf (idx i j) in
  if decide (under_type (under p) = "mat") then
    let phi := JS.orElse (under_phi (under p)) 0.5 in
    let kGap := 0.026 in
    let tGap := 0.001 in
    let hGap := kGap / tGap in
    let w := JS.max 0 (JS.min 1 phi) in
    let T1 := T !!! idx i (j + 1) in
    let k := kRow p !!! j in
    let Trob := ((k / dy p) * T1 + hGap * Tair p) / ((k / dy p) + hGap) in
    w * Tpipe + (1 - w) * Trob
  else Tpipe.

(** The Robin value of a top-row node. *)
Definition robinTop (T : list R) (i : nat) : R :=
  let k := kRow p !!! 0%nat in
  let T1 := T !!! idx i 1 in
  ((k / dy p) * T1 + hEff p * Tair p) / ((k / dy p) + hEff p).

(** The body of the top-row loop at column [i]. *)
Definition topNode (i : nat) (T : list R) : list R :=
  if decide (pipeMask p !!! idx i 0 ≠ 0%nat)
  then <[idx i 0 := pipeNodeValue T i 0]> T
  else <[idx i 0 := robinTop T i]> T.

(** The branch [j === 0] of a sweep: the column loop, then the corners. *)
Definition topRow (T : list R) : list R :=
  let T1 := for_ 0 NX topNode T in
  let T2 := <[idx 0 0 := T1 !!! idx 1 0]> T1 in
  <[idx (NX - 1) 0 := T2 !!! idx (NX - 2) 0]> T2.

(** The branch [j === NY-1] of a sweep. *)
Definition bottomNode (i : nat) (T : list R) : list R :=
  let j := (NY p - 1)%nat in
  if decide (pipeMask p !!! idx i j ≠ 0%nat)
  then <[idx i j := twm p]> T
  else <[idx i j := belowT p]> T.

Definition bottomRow (T : list R) : list R := for_ 0 NX bottomNode T.

(** The over-relaxed conduction update of an interior node. *)
Definition sorValue (T : list R) (i j : nat) : R :=
  let k := kRow p !!! j in
  let kU := kRow p !!! (j - 1)%nat in
  let kD := kRow p !!! (j + 1)%nat in
  let kxL := k in
  let kxR := k in
  let kyU := 2 * k * kU / (k + kU) in
  let kyD := 2 * k * kD / (k + kD) in
  let tL := T !!! idx (i - 1) j in
  let tR := T !!! idx (i + 1) j in
  let tU := T !!! idx i (j - 1) in
  let tD := T !!! idx i (j + 1) in
  let Ax := kxL / (dx p * dx p) + kxR / (dx p * dx p) in
  let Ay := kyU / (dy p * dy p) + kyD / (dy p * dy p) in
  let b := (kxL * tL + kxR * tR) / (dx p * dx p)
           + (kyU * tU + kyD * tD) / (dy p * dy p) in
  let Tnew := b / (Ax + Ay) in
  let old := T !!! idx i j in
  old + omega * (Tnew - old).

(** The body of the column loop of an interior row [j]. *)
Definition interiorNode (j i : nat) (T : list R) : list R :=
  if decide (i = 0%nat) then <[idx 0 j := T !!! idx 1 j]> T
  else if decide (i = (NX - 1)%nat)
  then <[idx (NX - 1) j := T !!! idx (NX - 2) j]> T
  else if decide (pipeMask p !!! idx i j ≠ 0%nat)
  then <[idx i j := pipeNodeValue T i j]> T
  else <[idx i j := sorValue T i j]> T.

Definition interiorRow (j : nat) (T : list R) : list R :=
  for_ 0 NX (interiorNode j) T.

(** One pass over the rows. *)
Definition sweepRow (j : nat) (T : list R) : list R :=
  if decide (j = 0%nat) then topRow T
  else if decide (j = (NY p - 1)%nat) then bottomRow T
  else interiorRow j T.

Definition sweep (T : list R) : list R := for_ 0 (NY p) sweepRow T.

(** The iteration loop: the fixed budget of passes over a seeded field. *)
Definition relax (T0 : list R) : list R := for_ 0 iters (fun _ T => sweep T) T0.

(** The relaxed field of the solve. *)
Definition solveField : list R := relax (T_init p).

End Relaxation.

(** The value the top-row loop stores at column [i]; it reads row 1 only. *)
Definition topValue (p : Params) (T : list R) (i : nat) : R :=
  if decide (pipeMask p !!! idx i 0 ≠ 0%nat)
  then pipeNodeValue p T i 0 else robinTop p T i.

(** ** Flux metrics *)

Section Metrics.

Variable p : Params.
Variable T : list R.

Definition surfaceT : list R :=
  for_ 0 NX (fun i a => <[i := T !!! idx i 0]> a) (replicate NX 0).

(** The upward-flux loop threads the array and the running sum. *)
Definition qUpLoop : list R * R :=
  for_ 0 NX
    (fun i st =>
       let q := hEff p * (surfaceT !!! i - Tair p) in
       (<[i := q]> (fst st), snd st + q))
    (replicate NX 0, 0).
Definition qUpArr : list R := fst qUpLoop.
Definition qUpSum : R := snd qUpLoop.
Definition qUpMean : R := qUpSum / INR NX.

Definition qDownSum : R :=
  for_ 0 NX
    (fun i acc =>
       let kB := kRow p !!! (NY p - 1)%nat in
       let Tb := T !!! idx i (NY p - 1) in
       let Tprev := T !!! idx i (NY p - 2) in
       let q := - kB * (Tb - Tprev) / dy p in
       acc + q)
    0.
Definition qDownMean : R := qDownSum / INR NX.
Definition qDownAbs : R := JS.max 0 qDownMean.

Definition qTotalPerArea : R := qUpMean + qDownAbs.
Definition upShare : R := qUpMean / (qTotalPerArea + 1e-9).

End Metrics.

(** The flux entries of the returned [metrics] object. *)
Record Metrics := {
  m_qUpMean : R; m_qDownMean : R; m_upShare : R; m_qTotal : R
}.

(** What the solve returns to the component (image, overlays and chart
    profile left out). *)
Record Result := {
  metrics : Metrics;
  grid_NY : nat;
  debug_pipeTemps : list R;
  field_T : list R
}.

(** The solve, with the content [buf] of the field buffer before the
    seeding loop made explicit. *)
Definition resultsFrom (p : Params) (buf : list R) : Result :=
  let T := relax p (seedField p buf) in
  {| metrics :=
       {| m_qUpMean := JS.toFixed 1 (qUpMean p T);
          m_qDownMean := JS.toFixed 1 (qDownAbs p T);
          m_upShare := JS.toFixed 1 (upShare p T * 100);
          m_qTotal := JS.toFixed 1 (qTotalPerArea p T) |};
     grid_NY := NY p;
     debug_pipeTemps := TpipeArr p;
     field_T := T |}.

(** The memoised callback: the field buffer is freshly allocated. *)
Definition results (p : Params) : Result :=
  resultsFrom p (replicate (NX * NY p) 0).

(** ** The claims as the specification words them *)

Module Spec.

(** A layer of zero thickness contributes no candidate cell size. *)
Definition layerCandidate (thickness cells : R) : list R :=
  if decide (thickness = 0) then [] else [thickness / cells].

(** The finest candidate: the baseline of 80 rows over the whole height
    and one candidate per layer present. *)
Definition targetCellSize (p : Params) : R :=
  JS.minOf ([totalH p / 79]
            ++ layerCandidate (tCover p) 6
            ++ layerCandidate (tScreed p) 30
            ++ layerCandidate (tUnder p) 4
            ++ layerCandidate (tIns p) 10).

(** The node count: round(height / target cell size) + 1, clamped to
    [3, 300]. *)
Definition nodeCountY (p : Params) : Z :=
  Z.max 3 (Z.min 300 (JS.round (totalH p / targetCellSize p) + 1)).

(** Conductivity never increases with the row index. *)
Definition kNonIncreasing (p : Params) : Prop :=
  forall j1 j2 : nat, (j1 <= j2)%nat -> (j2 < NY p)%nat ->
    kRow p !!! j2 <= kRow p !!! j1.

(** The placement invariant: insulation below the pipe, pipe inside the
    screed, pipe top at least the covering margin below the surface. *)
Definition pipeInsideScreed (p : Params) : Prop :=
  pipeBottomY p <= yInsulTop p
  /\ minCover <= pipeTopY p
  /\ tCover p <= pipeTopY p
  /\ pipeBottomY p <= yUnderTop p.

(** The loop thermal model.  [clamp s lo hi] keeps [s] in [lo, hi]; the
    decay coefficient is a parameter so that the wording of the claim and
    its amendment share the profile. *)
Definition clamp (s lo hi : R) : R := Rmax lo (Rmin hi s).

Definition alpha (p : Params) : R :=
  ln (Rmax (Ts p - Tair p) 1e-6 / Rmax (Tr p - Tair p) 1e-6) / L_eff p.

Definition T_supply (a : R) (p : Params) (s : R) : R :=
  Tair p + (Ts p - Tair p) * exp (- a * clamp s 0 (L_eff p)).

Definition T_return (a : R) (p : Params) (s : R) : R :=
  Tair p + (Ts p - Tair p) * exp (- a * clamp (L_eff p - s) 0 (L_eff p)).

(** The cut fraction, in its range [0, 0.5]. *)
Definition cutFraction (p : Params) : R := clamp (loopPosFrac p) 0 0.5.

Definition x (p : Params) : R := cutFraction p * L_eff p.

Definition delta (p : Params) : R :=
  if decide (layout p = "spiral") then 2.0 else 3.0.

Definition profile (a : R) (p : Params) : list R :=
  if decide (layout p = "meander")
  then [T_supply a p (x p - delta p); T_supply a p (x p);
        T_supply a p (x p + delta p)]
  else [T_supply a p (x p - delta p); T_return a p (x p);
        T_supply a p (x p + delta p)].

(** The sum of [f 0 .. f (n-1)], and the mean over the [NX] columns of a
    per-column quantity. *)
Fixpoint sumTo (n : nat) (f : nat -> R) : R :=
  match n with
  | O => 0
  | S m => sumTo m f + f m
  end.

Definition columnMean (f : nat -> R) : R := sumTo NX f / INR NX.

(** The one-sided finite difference of the downward flux in column [i]. *)
Definition qDownAt (p : Params) (T : list R) (i : nat) : R :=
  - kRow p !!! (NY p - 1)%nat
    * (T !!! idx i (NY p - 1) - T !!! idx i (NY p - 2)) / dy p.

(** The convective upward flux in column [i]. *)
Definition qUpAt (p : Params) (T : list R) (i : nat) : R :=
  hEff p * (T !!! idx i 0 - Tair p).

(** Every pipe temperature lies between return and supply temperature. *)
Definition profileBounded (p : Params) : Prop :=
  Forall (fun t => Tr p <= t <= Ts p) (TpipeArr p).

(** [v] is the conductivity of the layer that strictly contains the
    depth [y], when there is one. *)
Definition insideLayerValue (p : Params) (y v : R) : Prop :=
  (0 < y < tCover p -> v = layer_k (cover p))
  /\ (tCover p < y < tCover p + tScreed p -> v = screed_k (screed p))
  /\ (tCover p + tScreed p < y < tCover p + tScreed p + tUnder p -> v = kUnder p)
  /\ (tCover p + tScreed p + tUnder p < y < totalH p -> v = layer_k (insul p)).

End Spec.

(** ** Sample parameter sets *)

(** Return temperature raised to the supply temperature. *)
Definition equalTempParams : Params := setTr 45 defaultParams.

(** Supply temperature a hair above the return temperature. *)
Definition closeTempParams : Params := setTs 40.00001 defaultParams.

(** A short explicit loop, floored at 5 m, with the supply far above the
    return temperature. *)
Definition shortLoopParams : Params :=
  {| Tair := 22; Ts := 55; Tr := 25;
     spacing := 0.15; pipeOD := 0.016; screedThk := 0.050;
     hTop := 10; belowT := 18; airVel := 0;
     screed := screed_semi; cover := cover_tile;
     under := under_none; insul := insul_eps100;
     nPipes := 3; layout := "meander";
     loopLength := 1; loopPosFrac := 0.5;
     useFixedArea := false; areaM2 := 9;
     fixScale := false; autoReturn := false; flowLpm := 1.5; contrast := 1.6 |}.

(** A thin bare screed over a bubble-foil underlay. *)
Definition thinScreedParams : Params :=
  setCover cover_none (setScreedThk 0.02 (setUnder under_bubble5 defaultParams)).

(** A laminate covering over the default stack. *)
Definition laminateParams : Params := setCover cover_laminate8 defaultParams.

(** ** Further parts of the solve and of the component *)

(** [Math.max(...xs)], folded from the first element as [JS.minOf]. *)
Definition maxOf (xs : list R) : R :=
  match xs with
  | [] => 0
  | x :: r => fold_left Rmax r x
  end.

(** The value an interior-row loop stores at column [i] of row [j]. *)
Definition interiorValue (p : Params) (j i : nat) (T : list R) : R :=
  if decide (i = 0%nat) then T !!! idx 1 j
  else if decide (i = (NX - 1)%nat) then T !!! idx (NX - 2) j
  else if decide (pipeMask p !!! idx i j ≠ 0%nat) then pipeNodeValue p T i j
  else sorValue p T i j.

Section Comfort.

Variable p : Params.
Variable T : list R.

(** The two comfort counters, threaded through one loop over the
    surface. *)
Definition overLoop : nat * nat :=
  for_ 0 NX
    (fun i st =>
       let o29 := if decide (29 < surfaceT T !!! i) then S (fst st) else fst st in
       let o31 := if decide (31 < surfaceT T !!! i) then S (snd st) else snd st in
       (o29, o31))
    (0%nat, 0%nat).
Definition over29 : nat := fst overLoop.
Definition over31 : nat := snd overLoop.
Definition over29Pct : R := INR over29 / INR NX * 100.
Definition over31Pct : R := INR over31 / INR NX * 100.

Definition steps5 : nat :=
  Z.to_nat (Z.max 1 (JS.round (0.05 / JS.max 1e-9 (dx p)))).
Definition steps10 : nat :=
  Z.to_nat (Z.max 1 (JS.round (0.10 / JS.max 1e-9 (dx p)))).

(** The sliding-window maxima of the surface temperature difference. *)
Definition dFootLoop : R * R :=
  for_ 0 NX
    (fun i st =>
       let j5 := Nat.min (NX - 1) (i + steps5) in
       let j10 := Nat.min (NX - 1) (i + steps10) in
       (JS.max (fst st) (Rabs (surfaceT T !!! j5 - surfaceT T !!! i)),
        JS.max (snd st) (Rabs (surfaceT T !!! j10 - surfaceT T !!! i))))
    (0, 0).
Definition dFoot5 : R := fst dFootLoop.
Definition dFoot10 : R := snd dFootLoop.

Definition sumT : R := for_ 0 NX (fun i acc => acc + surfaceT T !!! i) 0.
Definition Tavg : R := sumT / INR NX.
Definition TmaxSurf : R := maxOf (surfaceT T).
Definition TminSurf : R := JS.minOf (surfaceT T).
Definition dTsurf : R := TmaxSurf - TminSurf.

(** The one-dimensional resistance estimate. *)
Definition Rcover : R :=
  if decide (0 < tCover p) then tCover p / JS.max (layer_k (cover p)) 1e-3 else 0.
Definition Rscreed : R := tScreed p / JS.max (screed_k (screed p)) 1e-3.
Definition Runder : R :=
  if decide (0 < tUnder p) then tUnder p / JS.max (kUnder p) 1e-3 else 0.
Definition Rconv : R := 1 / JS.max (hEff p) 1e-3.
Definition Rsum : R := Rcover + Rscreed + Runder + Rconv.
Definition TpipeEff : R :=
  (TpipeArr p !!! 0%nat + TpipeArr p !!! (length (TpipeArr p) - 1)%nat) * 0.5.
Definition q1D : R := (TpipeEff - Tair p) / JS.max Rsum 1e-6.
Definition Tsurf1D : R := Tair p + q1D * Rconv.

(** The return temperature at a fixed flow rate. *)
Definition rho : R := 998.
Definition cp : R := 4180.
Definition mdot : R := JS.max 1e-6 (flowLpm p / 1000 / 60 * rho).
Definition areaPlan : R :=
  if useFixedArea p then JS.max 1e-6 (areaM2 p)
  else JS.max 1e-6 (S_ p * L_eff p).
Definition Qloop : R := qUpMean p T * areaPlan.
Definition Tr_auto : R := Ts p - Qloop / JS.max 1e-6 (mdot * cp).

(** The colour scale of the image. *)
Definition Tmin : R :=
  if fixScale p then Tair p - 2 else JS.min (Tair p) (belowT p) - 2.
Definition Tmax : R :=
  if fixScale p then Tair p + 20 else JS.max (twm p) (Tair p + 15).
Definition clamp01 (v : R) : R :=
  JS.min 1 (JS.max 0 ((v - Tmin) / (Tmax - Tmin + 1e-9))).
(** [contrast || 1]: a zero contrast counts as 1. *)
Definition applyContrast (u : R) : R :=
  let c := JS.max 1 (JS.min 3 (if decide (contrast p = 0) then 1 else contrast p)) in
  let out := 0.5 + (u - 0.5) * c in
  JS.min 1 (JS.max 0 out).

End Comfort.

(** The effect that writes the automatic return temperature back into the
    component state, once a result exists: the new value of [Tr]. *)
Definition autoReturnEffect (autoReturn : bool) (Ts Tr Tr_auto : R) : R :=
  if negb autoReturn then Tr
  else
    let calc := JS.max 0 (JS.min Ts Tr_auto) in
    if decide (0.05 < Rabs (calc - Tr)) then JS.toFixed 2 calc else Tr.

(** *** Colour map *)

Record Stop := { stop_p : R; stop_c : list Z }.

Definition stops : list Stop :=
  [ {| stop_p := 0.0; stop_c := [0; 32; 128]%Z |};
    {| stop_p := 0.33; stop_c := [0; 180; 255]%Z |};
    {| stop_p := 0.66; stop_c := [255; 230; 0]%Z |};
    {| stop_p := 1.0; stop_c := [220; 0; 0]%Z |} ].

(** One channel of the blend between two stops. *)
Definition blend (f : R) (a b : Z) : Z :=
  JS.round (IZR a + f * (IZR b - IZR a)).

(** The loop over consecutive stops, with its early return; after the
    loop the colour of the last stop is returned. *)
Fixpoint colorScan (l : list Stop) (t : R) : list Z :=
  match l with
  | a :: ((b :: _) as rest) =>
      if bool_decide (stop_p a <= t) && bool_decide (t <= stop_p b)
      then
        let f := (t - stop_p a) / (stop_p b - stop_p a + 1e-9) in
        [ blend f (stop_c a !!! 0%nat) (stop_c b !!! 0%nat);
          blend f (stop_c a !!! 1%nat) (stop_c b !!! 1%nat);
          blend f (stop_c a !!! 2%nat) (stop_c b !!! 2%nat) ]
      else colorScan rest t
  | [a] => stop_c a
  | [] => []
  end.

Definition colorMap (t : R) : list Z := colorScan stops t.

(** *** Pointer sampling of the field *)

Record Rect := { rect_left : R; rect_top : R; rect_width : R; rect_height : R }.
Record Sample := { sample_x : R; sample_y : R; sample_T : R }.

(** [sampleTemperatureAtCanvas] on a solved field [T] of [nx] by [ny]
    nodes and the bounding rectangle of the canvas, once a result and the
    canvas exist. *)
Definition sampleTemperatureAtCanvas
    (T : list R) (nx ny : nat) (rect : Rect) (clientX clientY : R) : option Sample :=
  let xPx := clientX - rect_left rect in
  let yPx := clientY - rect_top rect in
  if bool_decide (xPx < 0) || bool_decide (yPx < 0)
     || bool_decide (rect_width rect < xPx) || bool_decide (rect_height rect < yPx)
  then None
  else
    let xf := xPx / rect_width rect * (INR nx - 1) in
    let yf := yPx / rect_height rect * (INR ny - 1) in
    let i0 := Z.to_nat (Z.max 0 (Z.min (Z.of_nat nx - 2) (Zfloor xf))) in
    let j0 := Z.to_nat (Z.max 0 (Z.min (Z.of_nat ny - 2) (Zfloor yf))) in
    let i1 := (i0 + 1)%nat in
    let j1 := (j0 + 1)%nat in
    let fx := xf - INR i0 in
    let fy := yf - INR j0 in
    let idx' := fun i j : nat => (j * nx + i)%nat in
    let T00 := T !!! idx' i0 j0 in
    let T10 := T !!! idx' i1 j0 in
    let T01 := T !!! idx' i0 j1 in
    let T11 := T !!! idx' i1 j1 in
    let Tv := (1 - fx) * (1 - fy) * T00 + fx * (1 - fy) * T10
              + (1 - fx) * fy * T01 + fx * fy * T11 in
    Some {| sample_x := xPx; sample_y := yPx; sample_T := Tv |}.

(** *** Isotherm tracing *)

(** [addEdge]: the crossing of the level [Tiso] on the cell edge from
    [(xa, ya)] at temperature [ta] to [(xb, yb)] at [tb], if there is
    one; the caller pushes it onto the cell's point list. *)
Definition addEdge (Tiso ta tb xa ya xb yb : R) : option (R * R) :=
  if bool_decide ((Tiso - ta) * (Tiso - tb) <= 0)
     && bool_decide (1e-9 < Rabs (tb - ta))
  then
    let f := (Tiso - ta) / (tb - ta) in
    Some (xa + f * (xb - xa), ya + f * (yb - ya))
  else None.

(** *** Number formatting *)

(** The part of [fmt] that follows [toFixed]: on the characters [s] of
    the fixed-point rendering, trailing zeros after the decimal point are
    cut, and the point with them when nothing else follows it. *)
Definition indexOfDot (s : list ascii) : option nat :=
  fst <$> list_find (fun c : ascii => c = "."%char) s.

(** The [while (end > i && s[end] === "0") end--] loop, started at
    [e]. *)
Fixpoint trimEnd (s : list ascii) (i e : nat) : nat :=
  match e with
  | O => O
  | S e' =>
      if bool_decide (i < e)%nat && bool_decide (s !! e = Some "0"%char)
      then trimEnd s i e' else e
  end.

Definition fmtTrim (s : list ascii) : list ascii :=
  match indexOfDot s with
  | None => s
  | Some i =>
      let e := trimEnd s i (length s - 1) in
      if decide (e = i) then take e s else take (e + 1) s
  end.

(** *** Notions used in the statements below *)

(** The temperature the seeding loop gives row [j]. *)
Definition seedRow (p : Params) (j : nat) : R :=
  let frac := 1 - INR j / (INR (NY p) - 1) in
  belowT p * (1 - frac) + Tair p * frac.

(** A loop that stores one value per column of row [j]. *)
Definition rowLoop (j : nat) (v : nat -> list R -> R) (n : nat) (T : list R) : list R :=
  for_ 0 n (fun i s => <[idx i j := v i s]> s) T.

(** What the mask loops leave at an interior node. *)
Definition markOf (p : Params) (i j : nat) : nat * Z :=
  match pipeHit p (INR i * dx p) (INR j * dy p) with
  | Some k => (1%nat, JS.toInt8 (Z.of_nat k))
  | None => (0%nat, (-1)%Z)
  end.

(** The invariant of the mask loops: visited interior nodes carry their
    mark, the others are untouched. *)
Definition marked (p : Params) (vis : nat -> nat -> Prop) (ml : list nat * list Z) : Prop :=
  length (fst ml) = (NX * NY p)%nat /\ length (snd ml) = (NX * NY p)%nat
  /\ forall i j, (1 <= i < NX - 1)%nat -> (1 <= j < NY p - 1)%nat ->
       (vis i j -> (fst ml !!! idx i j, snd ml !!! idx i j) = markOf p i j)
       /\ (~ vis i j -> (fst ml !!! idx i j, snd ml !!! idx i j) = (0%nat, (-1)%Z)).

(** A list of three colour channels, each between 0 and 255. *)
Definition validRGB (c : list Z) : Prop :=
  exists r g b, c = [r; g; b]
                /\ (0 <= r <= 255)%Z /\ (0 <= g <= 255)%Z /\ (0 <= b <= 255)%Z.

(** ** Auxiliary facts: clamps, rounding, loops *)

Ltac rmm :=
  unfold JS.max, JS.min, Rmax, Rmin in *;
  repeat (destruct (Rle_dec _ _) in *; try lra); try lra.

(** Evaluation of a closed numeric expression of the solve: every clamp
    and comparison is decided, innermost first. *)
Ltac rstep :=
  match goal with
  | |- context [Rmax ?a ?b] =>
      first [rewrite (Rmax_left a b) by lra | rewrite (Rmax_right a b) by lra]
  | |- context [Rmin ?a ?b] =>
      first [rewrite (Rmin_left a b) by lra | rewrite (Rmin_right a b) by lra]
  | |- context [Rle_dec ?a ?b] =>
      first [destruct (Rle_dec a b) as [?|?]; [|exfalso; lra]
            |destruct (Rle_dec a b) as [?|?]; [exfalso; lra|]]
  | |- context [Rlt_dec ?a ?b] =>
      first [destruct (Rlt_dec a b) as [?|?]; [|exfalso; lra]
            |destruct (Rlt_dec a b) as [?|?]; [exfalso; lra|]]
  | |- context [Req_dec_T ?a ?b] =>
      first [destruct (Req_dec_T a b) as [?|?]; [|exfalso; lra]
            |destruct (Req_dec_T a b) as [?|?]; [exfalso; lra|]]
  end.

Ltac reval :=
  simpl; unfold JS.max, JS.min; repeat (rstep; simpl); try lra.

Lemma tScreed_ge (p : Params) : 0.02 <= tScreed p.
Proof. unfold tScreed; rmm. Qed.

Lemma D_range (p : Params) : 0.012 <= D p <= 0.020.
Proof. unfold D; rmm. Qed.

Lemma S_range (p : Params) : 0.08 <= S_ p <= 0.40.
Proof. unfold S_; rmm. Qed.

Lemma isPositive_spec (v : option R) :
  JS.isPositive v = true -> exists x, v = Some x /\ 0 < x.
Proof.
  destruct v as [x|]; simpl; [|discriminate].
  destruct (Rlt_dec 0 x); [eauto|discriminate].
Qed.

Lemma tUnder_nonneg (p : Params) : 0 <= tUnder p.
Proof.
  unfold tUnder, isBubble.
  destruct (bool_decide _); simpl; [|lra].
  destruct (JS.isPositive _) eqn:E; [|lra].
  apply isPositive_spec in E as (x & -> & Hx). simpl. lra.
Qed.

Lemma tUnder_le_dBotRaw (p : Params) : tUnder p <= dBotRaw p.
Proof.
  unfold tUnder, dBotRaw, dBotUser, isBubble.
  destruct (bool_decide (under_type (under p) = "bubble")) eqn:Eb; simpl;
    [|rmm].
  destruct (JS.isPositive _) eqn:E; [|rmm].
  apply bool_decide_eq_true in Eb.
  rewrite bool_decide_true by (rewrite Eb; discriminate).
  rmm.
Qed.

Lemma round_eq (x : R) (z : Z) : IZR z <= x + 1/2 < IZR z + 1 -> JS.round x = z.
Proof.
  intros H. unfold JS.round. apply Zfloor_eq. exact H.
Qed.

Lemma round_ge (x : R) (z : Z) : IZR z <= x -> (z <= JS.round x)%Z.
Proof. intros H. unfold JS.round. apply Zfloor_lub. lra. Qed.

(** ** Layer stack *)

(** C10: for a bubble-foil underlay with a positive gap the gap thickness
    cancels in the equivalent conductivity, which is always
    0.01/0.176 W/(m K); the floor of 0.002 is never the larger value. *)
Theorem bubble_conductivity_constant (p : Params) (t : R) :
  under_type (under p) = "bubble" -> under_t (under p) = Some t -> 0 < t ->
  t / (0.11 * (t / 0.01) * 1.6) = 0.01 / 0.176
  /\ kUnder p = 0.01 / 0.176
  /\ 0.002 < t / Rgap t.
Proof.
  intros Hty Ht Hpos.
  assert (E : t / (0.11 * (t / 0.01) * 1.6) = 0.01 / 0.176).
  { replace (0.11 * (t / 0.01) * 1.6) with (t * 17.6) by lra.
    unfold Rdiv at 1. rewrite Rinv_mult, <- Rmult_assoc, Rinv_r by lra. lra. }
  split; [exact E|].
  unfold kUnder, isBubble. rewrite Hty, Ht.
  rewrite bool_decide_true by reflexivity. simpl.
  destruct (Rlt_dec 0 t) as [_|]; [|lra].
  unfold kBubble, Rgap, Rair_base, rad_factor. rewrite E.
  split; [rmm | lra].
Qed.

Lemma bubble_conductivity_constant_witness :
  kUnder (setUnder under_bubble5 defaultParams) = 0.01 / 0.176.
Proof.
  apply (bubble_conductivity_constant (setUnder under_bubble5 defaultParams) 0.005);
    [reflexivity | reflexivity | lra].
Defined.

(** ** Pipe placement *)

Lemma thinScreed_pipe :
  pipeTopY thinScreedParams = 0.009 /\ pipeBottomY thinScreedParams = 0.025
  /\ yUnderTop thinScreedParams = 0.02.
Proof.
  unfold pipeTopY, pipeCenterY, pipeBottomY, dBot, dBotRaw, maxDBot,
    limitByCover, limitByScreed, yUnderTop, yInsulTop, minCover, dBotUser,
    tUnder, isBubble, tCover, tScreed, D.
  repeat split; reval.
Qed.

(** C4, as worded: the margin and the screed embedment fail for a 20 mm
    bare screed on a 5 mm bubble foil. *)
Lemma pipe_inside_screed_counterexample :
  ~ Spec.pipeInsideScreed thinScreedParams.
Proof.
  unfold Spec.pipeInsideScreed, minCover.
  destruct thinScreed_pipe as (Ht & Hb & Hu). rewrite Ht, Hb, Hu. lra.
Qed.

(** C4, amended: the pipe bottom never passes the insulation top and the
    pipe top never enters the covering; the pipe top keeps the 0.02 m
    margin when the layers above the insulation total at least
    0.02 m + D, and the pipe bottom stays out of the underlay when the
    requested lift is not cut by the clamp. *)
Theorem pipe_placement_bounds (p : Params) :
  pipeBottomY p <= yInsulTop p
  /\ tCover p <= pipeTopY p
  /\ (minCover + D p <= yInsulTop p -> minCover <= pipeTopY p)
  /\ (dBotRaw p <= maxDBot p -> pipeBottomY p <= yUnderTop p).
Proof.
  pose proof (tScreed_ge p) as Hs. pose proof (D_range p) as HD.
  pose proof (tUnder_nonneg p) as Hu. pose proof (tUnder_le_dBotRaw p) as Hr.
  unfold pipeTopY, pipeCenterY, pipeBottomY, dBot, maxDBot, limitByCover,
    limitByScreed, yUnderTop, yInsulTop, minCover in *.
  repeat split; intros; rmm.
Qed.

Lemma pipe_placement_bounds_witness :
  (minCover + D defaultParams <= yInsulTop defaultParams
   /\ dBotRaw defaultParams <= maxDBot defaultParams)
  /\ minCover <= pipeTopY defaultParams
  /\ pipeBottomY defaultParams <= yUnderTop defaultParams.
Proof.
  assert (H1 : minCover + D defaultParams <= yInsulTop defaultParams).
  { unfold minCover, D, yInsulTop, tUnder, isBubble, tCover, tScreed. reval. }
  assert (H2 : dBotRaw defaultParams <= maxDBot defaultParams).
  { unfold dBotRaw, maxDBot, limitByCover, limitByScreed, dBotUser, minCover,
      D, yInsulTop, tUnder, isBubble, tCover, tScreed. reval. }
  destruct (pipe_placement_bounds defaultParams) as (_ & _ & Hm & Hb).
  split; [split; assumption|]. split; [apply Hm, H1 | apply Hb, H2].
Defined.

(** ** Adaptive vertical grid *)

Lemma fold_Rmin_pos (xs : list R) (x : R) :
  0 < x -> Forall (fun v => 0 < v) xs -> 0 < fold_left Rmin xs x.
Proof.
  revert x. induction xs as [|v xs IH]; intros x Hx Hall; simpl; [exact Hx|].
  inversion Hall; subst. apply IH; [|assumption].
  unfold Rmin. destruct (Rle_dec x v); assumption.
Qed.

Lemma minOf_pos (xs : list R) :
  xs <> [] -> Forall (fun v => 0 < v) xs -> 0 < JS.minOf xs.
Proof.
  destruct xs as [|x xs]; [congruence|]. intros _ Hall.
  inversion Hall; subst. simpl. apply fold_Rmin_pos; assumption.
Qed.

Lemma div_lower (a m c : R) : 0 < m -> c * m <= a -> c <= a / m.
Proof.
  intros Hm H. unfold Rdiv.
  apply Rmult_le_reg_r with m; [exact Hm|].
  rewrite Rmult_assoc, Rinv_l by lra. lra.
Qed.

Lemma totalH_ge (p : Params) : 0 <= tCover p -> 0 <= tIns p -> 0.02 <= totalH p.
Proof.
  intros Hc Hi. pose proof (tScreed_ge p). pose proof (tUnder_nonneg p).
  unfold totalH. lra.
Qed.

(** With non-negative thicknesses the candidate list of the code is the
    list of the specification. *)
Lemma dyLimits_spec (p : Params) :
  0 <= tCover p -> 0 <= tIns p ->
  dyLimits p =
    [totalH p / 79]
    ++ Spec.layerCandidate (tCover p) 6
    ++ Spec.layerCandidate (tScreed p) 30
    ++ Spec.layerCandidate (tUnder p) 4
    ++ Spec.layerCandidate (tIns p) 10.
Proof.
  intros Hc Hi. pose proof (tScreed_ge p) as Hs. pose proof (tUnder_nonneg p) as Hu.
  unfold dyLimits, dyBase, baseNY, Spec.layerCandidate.
  replace (JS.max 2 (80 - 1)) with 79 by (unfold JS.max, Rmax; destruct Rle_dec; lra).
  repeat f_equal.
  - destruct (Rlt_dec 0 (tCover p)), (decide (tCover p = 0)); try reflexivity; lra.
  - destruct (decide (tScreed p = 0)); [lra|reflexivity].
  - destruct (Rlt_dec 0 (tUnder p)), (decide (tUnder p = 0)); try reflexivity; lra.
  - destruct (Rlt_dec 0 (tIns p)), (decide (tIns p = 0)); try reflexivity; lra.
Qed.

Lemma dyLimits_pos (p : Params) :
  0 <= tCover p -> 0 <= tIns p -> Forall (fun v => 0 < v) (dyLimits p).
Proof.
  intros Hc Hi. pose proof (tScreed_ge p) as Hs. pose proof (totalH_ge p Hc Hi) as Ht.
  unfold dyLimits, dyBase, baseNY.
  replace (JS.max 2 (80 - 1)) with 79 by (unfold JS.max, Rmax; destruct Rle_dec; lra).
  repeat (apply Forall_app; split);
    repeat match goal with
      | |- context [Rlt_dec ?a ?b] => destruct (Rlt_dec a b)
      end;
    repeat constructor; lra.
Qed.

(** C5: with non-negative layer thicknesses, the vertical node count is
    round(totalH / targetCellSize) + 1 clamped to [3, 300], the target cell
    size being the least of the baseline candidate totalH/79 and the
    candidates thickness/6, /30, /4, /10 of the layers of non-zero
    thickness. *)
Theorem vertical_node_count (p : Params) :
  0 <= tCover p -> 0 <= tIns p ->
  NYz p = Spec.nodeCountY p /\ (3 <= NYz p <= 300)%Z.
Proof.
  intros Hc Hi. split; [|unfold NYz; lia].
  pose proof (totalH_ge p Hc Hi) as Ht.
  assert (Hm : 0 < JS.minOf (dyLimits p)).
  { apply minOf_pos; [|apply dyLimits_pos; assumption].
    unfold dyLimits. discriminate. }
  unfold NYz, Spec.nodeCountY, Spec.targetCellSize, dyTarget.
  rewrite <- (dyLimits_spec p Hc Hi).
  set (m := JS.minOf (dyLimits p)) in *.
  destruct (Rle_dec 1e-5 m) as [Hle|Hlt].
  - unfold JS.max. rewrite Rmax_right by exact Hle. reflexivity.
  - unfold JS.max. rewrite Rmax_left by lra.
    assert (H1 : (2000 <= JS.round (totalH p / 1e-5))%Z).
    { apply round_ge. apply div_lower; lra. }
    assert (H2 : (2000 <= JS.round (totalH p / m))%Z).
    { apply round_ge. apply div_lower; lra. }
    lia.
Qed.

Lemma vertical_node_count_witness :
  NYz defaultParams = Spec.nodeCountY defaultParams.
Proof.
  apply (vertical_node_count defaultParams); unfold tCover, tIns; simpl; lra.
Defined.

(** ** Loops *)

Lemma for_empty {A : Type} (lo hi : nat) (body : nat -> A -> A) (a : A) :
  (hi <= lo)%nat -> for_ lo hi body a = a.
Proof.
  intros H. unfold for_. replace (hi - lo)%nat with 0%nat by lia. reflexivity.
Qed.

Lemma for_last {A : Type} (lo hi : nat) (body : nat -> A -> A) (a : A) :
  (lo <= hi)%nat -> for_ lo (S hi) body a = body hi (for_ lo hi body a).
Proof.
  intros H. unfold for_.
  replace (S hi - lo)%nat with (S (hi - lo)) by lia.
  rewrite seq_S, fold_left_app. simpl.
  replace (lo + (hi - lo))%nat with hi by lia. reflexivity.
Qed.

(** Loop invariants: [P i s] holds of the state [s] before iteration [i]. *)
Lemma for_invariant {A : Type} (P : nat -> A -> Prop)
    (lo hi : nat) (body : nat -> A -> A) (a : A) :
  (lo <= hi)%nat ->
  P lo a ->
  (forall i s, (lo <= i < hi)%nat -> P i s -> P (S i) (body i s)) ->
  P hi (for_ lo hi body a).
Proof.
  intros Hle H0 Hstep. induction hi as [|hi IH].
  - assert (lo = 0%nat) as -> by lia. rewrite for_empty by lia. exact H0.
  - destruct (decide (lo = S hi)) as [->|Hne].
    + rewrite for_empty by lia. exact H0.
    + rewrite for_last by lia. apply Hstep; [lia|].
      apply IH; [lia|]. intros i s Hi. apply Hstep. lia.
Qed.

(** A loop that stores [f j] at every index [j] tabulates [f]. *)
Lemma for_tabulate (n : nat) (f : nat -> R) (j : nat) :
  (j < n)%nat ->
  for_ 0 n (fun j a => <[j := f j]> a) (replicate n 0) !!! j = f j.
Proof.
  intros Hj.
  pose (P := fun (i : nat) (a : list R) =>
               length a = n /\ forall j, (j < i)%nat -> a !!! j = f j).
  assert (H : P n (for_ 0 n (fun j a => <[j := f j]> a) (replicate n 0))).
  { apply for_invariant; [lia| |].
    - split; [apply length_replicate|]. intros; lia.
    - intros i s Hi [Hlen Hs]. split; [rewrite length_insert; exact Hlen|].
      intros j' Hj'. destruct (decide (j' = i)) as [->|Hne].
      + apply list_lookup_total_insert_eq. lia.
      + rewrite list_lookup_total_insert_ne by congruence. apply Hs. lia. }
  destruct H as [_ H]. apply H, Hj.
Qed.

(** ** Conductivity rows *)

Lemma NYz_range (p : Params) : (3 <= NYz p <= 300)%Z.
Proof. unfold NYz. lia. Qed.

Lemma NY_range (p : Params) : (3 <= NY p <= 300)%nat.
Proof. pose proof (NYz_range p). unfold NY. lia. Qed.

Lemma INR_NY (p : Params) : INR (NY p) = IZR (NYz p).
Proof.
  pose proof (NYz_range p). unfold NY.
  rewrite INR_IZR_INZ, Z2Nat.id by lia. reflexivity.
Qed.

Lemma kRow_at (p : Params) (j : nat) :
  (j < NY p)%nat -> kRow p !!! j = kAt p (INR j * dy p).
Proof.
  intros Hj. unfold kRow.
  apply (for_tabulate (NY p) (fun j => kAt p (INR j * dy p)) j Hj).
Qed.

Lemma laminate_NYz : NYz laminateParams = 97%Z.
Proof.
  assert (Hh : totalH laminateParams = 0.16).
  { unfold totalH, tCover, tScreed, tUnder, tIns, isBubble. reval. }
  assert (Hd : dyTarget laminateParams = 0.01 / 6).
  { unfold dyTarget, dyLimits, dyBase, baseNY. rewrite Hh.
    unfold tCover, tScreed, tUnder, tIns, isBubble. reval. }
  unfold NYz. rewrite Hh, Hd.
  rewrite (round_eq _ 96); [reflexivity|].
  replace (0.16 / (0.01 / 6)) with 96; [lra|].
  unfold Rdiv. rewrite Rinv_mult, Rinv_inv. lra.
Qed.

Lemma laminate_rows :
  kRow laminateParams !!! 0%nat = 0.11 /\ kRow laminateParams !!! 12%nat = 0.46.
Proof.
  assert (Hn : NY laminateParams = 97%nat) by (unfold NY; rewrite laminate_NYz; reflexivity).
  assert (Hdy : dy laminateParams = 0.16 / 96).
  { unfold dy. rewrite INR_NY, laminate_NYz.
    unfold totalH, tCover, tScreed, tUnder, tIns, isBubble. reval. }
  split.
  - rewrite kRow_at by (rewrite Hn; lia). rewrite Hdy.
    unfold kAt, tCover, tScreed, tUnder, isBubble. reval.
  - rewrite kRow_at by (rewrite Hn; lia). rewrite Hdy.
    replace (INR 12) with 12 by (simpl; lra).
    unfold kAt, tCover, tScreed, tUnder, isBubble. reval.
Qed.

(** C3, as worded: with a laminate covering (0.11) on a semi-dry screed
    (0.46) the conductivity rises from row 0 to row 12. *)
Lemma layering_counterexample : ~ Spec.kNonIncreasing laminateParams.
Proof.
  intros H. specialize (H 0%nat 12%nat).
  destruct laminate_rows as [H0 H12]. rewrite H0, H12 in H.
  assert (Hn : NY laminateParams = 97%nat) by (unfold NY; rewrite laminate_NYz; reflexivity).
  rewrite Hn in H. assert (0.46 <= 0.11) by (apply H; lia). lra.
Qed.

(** C3, amended: the conductivity assigned at a depth is a step function
    in the declared layer order (covering, screed, underlay, insulation),
    not necessarily non-increasing: a depth strictly inside a layer gets
    that layer's conductivity, whatever the thicknesses of the other
    layers, and so does every row of the grid whose depth is strictly
    inside a layer. *)
Theorem layering_step_function (p : Params) (y : R) (j : nat) :
  Spec.insideLayerValue p y (kAt p y)
  /\ ((j < NY p)%nat -> Spec.insideLayerValue p (INR j * dy p) (kRow p !!! j)).
Proof.
  pose proof (tScreed_ge p) as Hs. pose proof (tUnder_nonneg p) as Hu.
  assert (H : forall z, Spec.insideLayerValue p z (kAt p z)).
  { intros z. unfold Spec.insideLayerValue, kAt, totalH, tCover, tIns in *.
    repeat split; intros;
      repeat match goal with
        | |- context [Rle_dec ?a ?b] => destruct (Rle_dec a b); try lra
        | |- context [Rlt_dec ?a ?b] => destruct (Rlt_dec a b); try lra
        | |- context [Req_dec_T ?a ?b] => destruct (Req_dec_T a b); try lra
        end; try reflexivity; try contradiction. }
  split; [apply H|]. intros Hj. rewrite kRow_at by exact Hj. apply H.
Qed.

Lemma layering_step_function_witness :
  kAt laminateParams 0.005 = 0.11 /\ kRow laminateParams !!! 12%nat = 0.46.
Proof.
  assert (Hn : NY laminateParams = 97%nat) by (unfold NY; rewrite laminate_NYz; reflexivity).
  assert (Hdy : dy laminateParams = 0.16 / 96).
  { unfold dy. rewrite INR_NY, laminate_NYz.
    unfold totalH, tCover, tScreed, tUnder, tIns, isBubble. reval. }
  assert (Hc : tCover laminateParams = 0.010) by reflexivity.
  assert (Hs : tScreed laminateParams = 0.050) by (unfold tScreed; reval).
  destruct (layering_step_function laminateParams 0.005 12) as [Hy Hrow].
  split.
  - destruct Hy as (Hcov & _). rewrite Hcov by (rewrite Hc; lra). reflexivity.
  - destruct Hrow as (_ & Hscr & _); [rewrite Hn; lia|].
    rewrite Hscr; [reflexivity|].
    rewrite Hdy, Hc, Hs. replace (INR 12) with 12 by (simpl; lra). lra.
Defined.

(** ** Loop thermal model *)

Lemma L_eff_ge (p : Params) : 5 <= L_eff p.
Proof. unfold L_eff, JS.max. apply Rmax_l. Qed.

Lemma nCenters_3 (p : Params) : nPipes p = 3%nat -> length (pipeCenters p) = 3%nat.
Proof.
  intros H. unfold pipeCenters, nCenters. rewrite H.
  rewrite length_map, length_seq. reflexivity.
Qed.

Lemma xPos_spec (p : Params) : xPos p = Spec.x p.
Proof.
  pose proof (L_eff_ge p). unfold xPos, Spec.x, Spec.cutFraction, Spec.clamp, JS.max, JS.min.
  rewrite (Rmax_right 1e-6 (L_eff p)) by lra. reflexivity.
Qed.

Lemma alphaDbg_spec (p : Params) : alphaDbg p = Rmax 1e-6 (Spec.alpha p).
Proof.
  pose proof (L_eff_ge p). unfold alphaDbg, Spec.alpha, JS.max, JS.log.
  rewrite (Rmax_right 1e-6 (L_eff p)) by lra.
  rewrite (Rmax_comm 1e-6 (Ts p - Tair p)), (Rmax_comm 1e-6 (Tr p - Tair p)).
  reflexivity.
Qed.

(** The profile the code computes for three pipes, in terms of the decay
    coefficient it fits. *)
Lemma TpipeArr_profile (p : Params) :
  nPipes p = 3%nat -> layout p = "meander" \/ layout p = "spiral" ->
  TpipeArr p = Spec.profile (alphaDbg p) p.
Proof.
  intros Hn Hl. pose proof (L_eff_ge p) as HL.
  unfold TpipeArr, computePipeTemperatures. rewrite (nCenters_3 p Hn). simpl.
  rewrite xPos_spec.
  unfold Spec.profile, Spec.T_supply, Spec.T_return, Spec.delta, Spec.clamp,
    alphaDbg, JS.max, JS.min, JS.log.
  destruct Hl as [Hl|Hl]; rewrite Hl; simpl; reflexivity.
Qed.

(** C1, amended: with three pipes the profile is
    [T_supply(x-d), T_supply(x), T_supply(x+d)] for the meander layout and
    [T_supply(x-d), T_return(x), T_supply(x+d)] for the spiral layout, with
    d = 3 m for meander and 2 m for spiral, x = cutFraction L, and the decay
    coefficient floored: alpha = max(1e-6, ln(max(Ts-Tair,1e-6) /
    max(Tr-Tair,1e-6)) / L). *)
Theorem pipe_profile_floored_alpha (p : Params) :
  nPipes p = 3%nat -> layout p = "meander" \/ layout p = "spiral" ->
  TpipeArr p = Spec.profile (Rmax 1e-6 (Spec.alpha p)) p
  /\ (layout p = "meander" -> Spec.delta p = 3.0)
  /\ (layout p = "spiral" -> Spec.delta p = 2.0).
Proof.
  intros Hn Hl. split; [|split].
  - rewrite <- alphaDbg_spec. apply TpipeArr_profile; assumption.
  - intros E. unfold Spec.delta. rewrite E. reflexivity.
  - intros E. unfold Spec.delta. rewrite E. reflexivity.
Qed.

Lemma pipe_profile_floored_alpha_witness :
  TpipeArr defaultParams
  = Spec.profile (Rmax 1e-6 (Spec.alpha defaultParams)) defaultParams.
Proof.
  apply (pipe_profile_floored_alpha defaultParams); [reflexivity|right; reflexivity].
Defined.

Lemma equalTemp_L : L_eff equalTempParams = 60.
Proof. unfold L_eff, S_. reval. Qed.

Lemma equalTemp_alpha : Spec.alpha equalTempParams = 0.
Proof.
  unfold Spec.alpha. simpl.
  rewrite (Rmax_left (45 - 22) 1e-6) by lra.
  replace ((45 - 22) / (45 - 22)) with 1 by lra.
  rewrite ln_1. lra.
Qed.

(** C1, as worded: with equal supply and return temperature the unfloored
    coefficient is 0 and the worded profile is flat at 45, while the code
    decays with alpha = 1e-6. *)
Lemma pipe_profile_counterexample :
  nPipes equalTempParams = 3%nat
  /\ layout equalTempParams = "spiral"
  /\ TpipeArr equalTempParams
     <> Spec.profile (Spec.alpha equalTempParams) equalTempParams.
Proof.
  split; [reflexivity|]. split; [reflexivity|]. intros H.
  rewrite (TpipeArr_profile equalTempParams) in H by (reflexivity || (right; reflexivity)).
  rewrite alphaDbg_spec, equalTemp_alpha in H.
  apply (f_equal (fun l : list R => l !!! 1%nat)) in H.
  unfold Spec.profile, Spec.T_return, Spec.x, Spec.cutFraction, Spec.clamp in H.
  rewrite equalTemp_L in H. simpl in H.
  rewrite (Rmax_left 1e-6 0) in H by lra.
  rewrite (Rmin_left 0.5 0.5) in H by lra.
  rewrite (Rmax_right 0 0.5) in H by lra.
  rewrite (Rmin_right 60 (60 - 0.5 * 60)) in H by lra.
  rewrite (Rmax_right 0 (60 - 0.5 * 60)) in H by lra.
  replace (- 0 * (60 - 0.5 * 60)) with 0 in H by lra.
  rewrite exp_0 in H.
  assert (Hlt : exp (- (1e-6) * (60 - 0.5 * 60)) < 1).
  { pose proof (exp_increasing (- (1e-6) * (60 - 0.5 * 60)) 0) as E.
    rewrite exp_0 in E. apply E. lra. }
  lra.
Qed.

(** *** Bounds on the exponential and the logarithm *)

Lemma exp_le (a b : R) : a <= b -> exp a <= exp b.
Proof.
  intros [H| ->]; [left; apply exp_increasing, H | right; reflexivity].
Qed.

Lemma exp_neg_bound (z : R) : 0 < z -> exp (- z) * (1 + z) < 1.
Proof.
  intros Hz. pose proof (exp_pos (- z)) as He.
  assert (H1 : 1 + z < exp z) by (apply exp_ineq1; lra).
  assert (H2 : exp (- z) * exp z = 1).
  { rewrite <- exp_plus. replace (- z + z) with 0 by lra. apply exp_0. }
  nra.
Qed.

Lemma ln_lt_minus1 (v : R) : 0 < v -> v <> 1 -> ln v < v - 1.
Proof.
  intros Hv Hne.
  assert (H : 1 + (v - 1) < exp (v - 1)) by (apply exp_ineq1; lra).
  replace (1 + (v - 1)) with v in H by lra.
  apply ln_increasing in H; [|exact Hv]. rewrite ln_exp in H. exact H.
Qed.

Lemma ln_gt_inv (v : R) : 0 < v -> v <> 1 -> 1 - / v < ln v.
Proof.
  intros Hv Hne.
  assert (Hi : 0 < / v) by (apply Rinv_0_lt_compat, Hv).
  assert (Hn : / v <> 1).
  { intros E. apply Hne. rewrite <- (Rinv_inv v), E. apply Rinv_1. }
  pose proof (ln_lt_minus1 (/ v) Hi Hn) as H.
  rewrite ln_Rinv in H by exact Hv. lra.
Qed.

(** *** Range of the profile *)

(** Every entry of the three-pipe profile is the supply-side decay at some
    travelled length within the loop. *)
Lemma TpipeArr_entries (p : Params) :
  nPipes p = 3%nat ->
  Forall (fun t => exists c, 0 <= c <= L_eff p
                     /\ t = Tair p + (Ts p - Tair p) * exp (- alphaDbg p * c))
         (TpipeArr p).
Proof.
  intros Hn. pose proof (L_eff_ge p) as HL.
  unfold TpipeArr, computePipeTemperatures. rewrite (nCenters_3 p Hn). simpl.
  assert (Hc : forall v, 0 <= JS.max 0 (JS.min (L_eff p) v) <= L_eff p).
  { intros v. unfold JS.max, JS.min, Rmax, Rmin.
    repeat destruct (Rle_dec _ _); lra. }
  destruct (decide (layout p = "meander")); simpl;
    repeat constructor; eexists; (split; [apply Hc|reflexivity]).
Qed.

(** C6, amended: with three pipes and Ts > Tr > Tair the fitted decay
    coefficient is strictly positive and no pipe temperature exceeds Ts;
    no pipe temperature falls below Tr provided the 1e-6 floor on the
    coefficient is not the larger value, as in the boundary scenario of a
    loop floored at 5 m with Ts far above Tr. *)
Theorem pipe_profile_range (p : Params) :
  nPipes p = 3%nat -> Tair p < Tr p -> Tr p < Ts p ->
  0 < alphaDbg p
  /\ Forall (fun t => t <= Ts p) (TpipeArr p)
  /\ (1e-6 <= Spec.alpha p -> Spec.profileBounded p).
Proof.
  intros Hn Hr Hs. pose proof (L_eff_ge p) as HL.
  pose proof (TpipeArr_entries p Hn) as He.
  assert (Ha : 0 < alphaDbg p).
  { rewrite alphaDbg_spec. pose proof (Rmax_l 1e-6 (Spec.alpha p)). lra. }
  assert (Hup : Forall (fun t => t <= Ts p) (TpipeArr p)).
  { eapply Forall_impl; [exact He|]. intros t (c & Hc & ->).
    assert (exp (- alphaDbg p * c) <= 1).
    { rewrite <- exp_0. apply exp_le. nra. }
    nra. }
  split; [exact Ha|]. split; [exact Hup|].
  intros Hfloor. unfold Spec.profileBounded.
  apply Forall_and. split; [|exact Hup].
  set (num := Rmax (Ts p - Tair p) 1e-6).
  set (den := Rmax (Tr p - Tair p) 1e-6).
  assert (Hden : 1e-6 <= den /\ Tr p - Tair p <= den).
  { split; [apply Rmax_r | apply Rmax_l]. }
  assert (Hln : 0 < ln (num / den)).
  { unfold Spec.alpha in Hfloor. fold num den in Hfloor.
    assert (0 < ln (num / den) / L_eff p) by lra.
    unfold Rdiv in H at 1.
    assert (0 < / L_eff p) by (apply Rinv_0_lt_compat; lra).
    nra. }
  assert (Hnum : 0 < num) by (pose proof (Rmax_r (Ts p - Tair p) 1e-6); fold num in H; lra).
  assert (Hq : 0 < num / den) by (apply Rdiv_lt_0_compat; lra).
  assert (Hgt : 1 < num / den).
  { apply ln_lt_inv; [lra|exact Hq|]. rewrite ln_1. exact Hln. }
  assert (Hnd : den < num).
  { apply (Rmult_lt_compat_r den) in Hgt; [|lra].
    unfold Rdiv in Hgt. rewrite Rmult_assoc, Rinv_l in Hgt by lra. lra. }
  assert (Hnum_eq : num = Ts p - Tair p).
  { unfold num, Rmax in *. destruct (Rle_dec (Ts p - Tair p) 1e-6); lra. }
  assert (Halpha : alphaDbg p = ln (num / den) / L_eff p).
  { rewrite alphaDbg_spec. unfold Spec.alpha. fold num den.
    apply Rmax_right. exact Hfloor. }
  assert (HexpL : exp (- alphaDbg p * L_eff p) = den / num).
  { rewrite Halpha.
    replace (- (ln (num / den) / L_eff p) * L_eff p) with (- ln (num / den))
      by (field; lra).
    rewrite exp_Ropp, exp_ln by exact Hq.
    unfold Rdiv. rewrite Rinv_mult, Rinv_inv. ring. }
  eapply Forall_impl; [exact He|]. intros t (c & Hc & ->).
  assert (Hmono : exp (- alphaDbg p * L_eff p) <= exp (- alphaDbg p * c)).
  { apply exp_le. nra. }
  rewrite HexpL in Hmono. rewrite <- Hnum_eq.
  assert (Hprod : num * (den / num) = den) by (field; lra).
  nra.
Qed.

Lemma closeTemp_L : L_eff closeTempParams = 60.
Proof. unfold L_eff, S_. reval. Qed.

Lemma closeTemp_alpha : alphaDbg closeTempParams = 1e-6.
Proof.
  rewrite alphaDbg_spec. apply Rmax_left.
  unfold Spec.alpha. rewrite closeTemp_L. simpl.
  rewrite (Rmax_left (40.00001 - 22) 1e-6), (Rmax_left (40 - 22) 1e-6) by lra.
  assert (H : ln ((40.00001 - 22) / (40 - 22)) < (40.00001 - 22) / (40 - 22) - 1).
  { apply ln_lt_minus1; lra. }
  lra.
Qed.

(** C6, as worded: with Ts = 40.00001 and Tr = 40 the floor 1e-6 exceeds
    the fitted coefficient, and the third pipe temperature,
    T_supply(32 m), is below Tr. *)
Lemma pipe_profile_range_counterexample :
  nPipes closeTempParams = 3%nat
  /\ Tair closeTempParams < Tr closeTempParams < Ts closeTempParams
  /\ ~ Spec.profileBounded closeTempParams.
Proof.
  split; [reflexivity|]. split; [simpl; lra|]. intros H.
  unfold Spec.profileBounded in H.
  rewrite (TpipeArr_profile closeTempParams) in H by (reflexivity || (right; reflexivity)).
  rewrite closeTemp_alpha in H.
  assert (H2 : Tr closeTempParams
               <= Spec.T_supply 1e-6 closeTempParams
                    (Spec.x closeTempParams + Spec.delta closeTempParams)).
  { apply (Forall_lookup_1 _ _ 2%nat _ H). reflexivity. }
  unfold Spec.T_supply, Spec.x, Spec.cutFraction, Spec.delta, Spec.clamp in H2.
  rewrite closeTemp_L in H2. simpl in H2.
  rewrite (Rmin_left 0.5 0.5) in H2 by lra.
  rewrite (Rmax_right 0 0.5) in H2 by lra.
  rewrite (Rmin_right 60 (0.5 * 60 + 2.0)) in H2 by lra.
  rewrite (Rmax_right 0 (0.5 * 60 + 2.0)) in H2 by lra.
  pose proof (exp_neg_bound (1e-6 * (0.5 * 60 + 2.0))) as Hb.
  replace (- (1e-6 * (0.5 * 60 + 2.0))) with (- (1e-6) * (0.5 * 60 + 2.0)) in Hb by lra.
  assert (Hlt : 0 < 1e-6 * (0.5 * 60 + 2.0)) by lra.
  specialize (Hb Hlt).
  pose proof (exp_pos (- (1e-6) * (0.5 * 60 + 2.0))) as Hp.
  lra.
Qed.

Lemma shortLoop_L : L_eff shortLoopParams = 5.
Proof. unfold L_eff. reval. Qed.

Lemma shortLoop_alpha : 1e-6 <= Spec.alpha shortLoopParams.
Proof.
  unfold Spec.alpha. rewrite shortLoop_L. simpl.
  rewrite (Rmax_left (55 - 22) 1e-6), (Rmax_left (25 - 22) 1e-6) by lra.
  replace ((55 - 22) / (25 - 22)) with 11 by lra.
  assert (H : 1 - / 11 < ln 11) by (apply ln_gt_inv; lra).
  lra.
Qed.

Lemma pipe_profile_range_witness :
  L_eff shortLoopParams = 5
  /\ 0 < alphaDbg shortLoopParams
  /\ Spec.profileBounded shortLoopParams.
Proof.
  destruct (pipe_profile_range shortLoopParams) as (Ha & _ & Hb);
    [reflexivity | simpl; lra | simpl; lra |].
  split; [exact shortLoop_L|]. split; [exact Ha|]. apply Hb, shortLoop_alpha.
Defined.

(** ** Pipe mask *)

Lemma idx_inj (i j i' j' : nat) :
  (i < NX)%nat -> (i' < NX)%nat -> idx i j = idx i' j' -> i = i' /\ j = j'.
Proof. unfold idx, NX. lia. Qed.

Lemma idx_lt (p : Params) (i j : nat) :
  (i < NX)%nat -> (j < NY p)%nat -> (idx i j < NX * NY p)%nat.
Proof. unfold idx, NX. lia. Qed.

Lemma markNode_other (p : Params) (i j : nat) (ml : list nat * list Z) (c : nat) :
  c <> idx i j -> fst (markNode p i j ml) !!! c = fst ml !!! c.
Proof.
  intros Hc. unfold markNode. destruct (pipeHit _ _ _); simpl; [|reflexivity].
  apply list_lookup_total_insert_ne. congruence.
Qed.

(** The mask is written at interior nodes only. *)
Lemma pipeMask_outside (p : Params) (c : nat) :
  (c < NX * NY p)%nat ->
  (forall i j, (1 <= i < NX - 1)%nat -> (1 <= j < NY p - 1)%nat -> c <> idx i j) ->
  pipeMask p !!! c = 0%nat.
Proof.
  intros Hc Hout. pose proof (NY_range p) as HNY.
  unfold pipeMask, pipeArrays.
  apply (for_invariant (fun (_ : nat) (ml : list nat * list Z) => fst ml !!! c = 0%nat));
    [lia| |].
  - simpl. apply lookup_total_replicate_2. exact Hc.
  - intros j s Hj Hs.
    apply (for_invariant (fun (_ : nat) (ml : list nat * list Z) => fst ml !!! c = 0%nat));
      [unfold NX; lia|exact Hs|].
    intros i s' Hi Hs'. rewrite markNode_other; [exact Hs'|]. apply Hout; lia.
Qed.

(** C9: every node of the domain boundary has mask 0, so the top-row and
    bottom-row loops always take their non-pipe branch: Robin value on
    top, below-insulation temperature at the bottom. *)
Theorem boundary_nodes_unmasked (p : Params) (i j : nat) :
  (i < NX)%nat -> (j < NY p)%nat ->
  i = 0%nat \/ i = (NX - 1)%nat \/ j = 0%nat \/ j = (NY p - 1)%nat ->
  pipeMask p !!! idx i j = 0%nat
  /\ (forall T : list R, topNode p i T = <[idx i 0 := robinTop p T i]> T)
  /\ (forall T : list R, bottomNode p i T = <[idx i (NY p - 1) := belowT p]> T).
Proof.
  intros Hi Hj Hb. pose proof (NY_range p) as HNY.
  assert (Hz : forall i' j', (i' < NX)%nat -> (j' < NY p)%nat ->
            i' = 0%nat \/ i' = (NX - 1)%nat \/ j' = 0%nat \/ j' = (NY p - 1)%nat ->
            pipeMask p !!! idx i' j' = 0%nat).
  { intros i' j' Hi' Hj' Hb'. apply pipeMask_outside; [apply idx_lt; assumption|].
    intros a b Ha Hb2 E.
    apply idx_inj in E; [|exact Hi'|lia]. lia. }
  split; [apply Hz; assumption|]. split; intros T.
  - unfold topNode. rewrite Hz by (auto || lia).
    destruct (decide (0%nat ≠ 0%nat)); [congruence|reflexivity].
  - unfold bottomNode. rewrite Hz by (auto || lia).
    destruct (decide (0%nat ≠ 0%nat)); [congruence|reflexivity].
Qed.

Lemma boundary_nodes_unmasked_witness :
  pipeMask defaultParams !!! idx 0 0 = 0%nat.
Proof.
  pose proof (NY_range defaultParams) as HNY.
  apply (boundary_nodes_unmasked defaultParams 0 0);
    [unfold NX; lia | lia | left; reflexivity].
Defined.

(** ** Top-row sweep *)

Lemma topNode_value (p : Params) (T : list R) (i : nat) :
  topNode p i T = <[idx i 0 := topValue p T i]> T.
Proof. unfold topNode, topValue. destruct (decide _); reflexivity. Qed.

Lemma topValue_row1 (p : Params) (T T' : list R) (i : nat) :
  (forall c, (NX <= c)%nat -> T' !!! c = T !!! c) ->
  topValue p T' i = topValue p T i.
Proof.
  intros H. unfold topValue, pipeNodeValue, robinTop.
  rewrite !H by (unfold idx, NX; lia). reflexivity.
Qed.

(** The column loop of the top row: row 0 receives the values computed
    from the incoming row 1, everything below row 0 is left as it was. *)
Lemma topLoop_spec (p : Params) (T : list R) :
  let T1 := for_ 0 NX (topNode p) T in
  length T1 = length T
  /\ (forall c, (NX <= c)%nat -> T1 !!! c = T !!! c)
  /\ (forall i, (i < NX)%nat -> (NX <= length T)%nat ->
                T1 !!! idx i 0 = topValue p T i).
Proof.
  pose (P := fun (n : nat) (s : list R) =>
               length s = length T
               /\ (forall c, (NX <= c)%nat -> s !!! c = T !!! c)
               /\ (forall i, (i < n)%nat -> (NX <= length T)%nat ->
                             s !!! idx i 0 = topValue p T i)).
  assert (H : P NX (for_ 0 NX (topNode p) T)).
  { apply for_invariant; [lia| |].
    - repeat split; intros; lia.
    - intros i s Hi (Hlen & Hrow & Hdone). rewrite topNode_value.
      split; [rewrite length_insert; exact Hlen|]. split.
      + intros c Hc. rewrite list_lookup_total_insert_ne by (unfold idx; lia).
        apply Hrow, Hc.
      + intros i' Hi' HT. destruct (decide (i' = i)) as [->|Hne].
        * rewrite list_lookup_total_insert_eq by (unfold idx; lia).
          apply topValue_row1, Hrow.
        * rewrite list_lookup_total_insert_ne by (unfold idx; lia).
          apply Hdone; [lia|exact HT]. }
  destruct H as (H1 & H2 & H3). simpl. repeat split; assumption.
Qed.

(** C2: after a top-row sweep of a field of the grid's size, every
    non-pipe node (i,0) with 0 < i < NX-1 holds the flux-weighted average
    of its lower neighbour and the air, with the top row's conductivity
    and h_eff = h_top + 6 max(0, airVel)^0.6, and each top corner equals
    its neighbour in the top row. *)
Theorem top_row_sweep (p : Params) (T : list R) :
  length T = (NX * NY p)%nat ->
  let T' := topRow p T in
  let k := kRow p !!! 0%nat in
  hEff p = hTop p + 6 * JS.pow (Rmax 0 (airVel p)) 0.6
  /\ (forall i, (0 < i < NX - 1)%nat -> pipeMask p !!! idx i 0 = 0%nat ->
        T' !!! idx i 0
        = ((k / dy p) * T' !!! idx i 1 + hEff p * Tair p) / ((k / dy p) + hEff p))
  /\ T' !!! idx 0 0 = T' !!! idx 1 0
  /\ T' !!! idx (NX - 1) 0 = T' !!! idx (NX - 2) 0.
Proof.
  intros Hlen T' k. pose proof (NY_range p) as HNY.
  assert (HNX : (NX <= length T)%nat) by (rewrite Hlen; unfold NX; lia).
  destruct (topLoop_spec p T) as (Hl1 & Hrow & Hval).
  set (T1 := for_ 0 NX (topNode p) T) in *.
  set (T2 := <[idx 0 0 := T1 !!! idx 1 0]> T1).
  assert (HT' : T' = <[idx (NX - 1) 0 := T2 !!! idx (NX - 2) 0]> T2) by reflexivity.
  assert (Hl2 : length T2 = length T) by (unfold T2; rewrite length_insert; exact Hl1).
  assert (Hget : forall c, c <> idx 0 0 -> c <> idx (NX - 1) 0 -> T' !!! c = T1 !!! c).
  { intros c H0 H1. rewrite HT'.
    rewrite list_lookup_total_insert_ne by congruence.
    unfold T2. apply list_lookup_total_insert_ne. congruence. }
  split; [unfold hEff, JS.max; f_equal; lra|]. split; [|split].
  - intros i Hi Hmask.
    rewrite (Hget (idx i 0)) by (unfold idx, NX in *; lia).
    rewrite (Hget (idx i 1)) by (unfold idx, NX in *; lia).
    rewrite Hval by (lia || exact HNX).
    rewrite Hrow by (unfold idx, NX; lia).
    unfold topValue. rewrite Hmask.
    destruct (decide (0%nat ≠ 0%nat)); [congruence|reflexivity].
  - rewrite (Hget (idx 1 0)) by (unfold idx, NX; lia).
    rewrite HT'. rewrite list_lookup_total_insert_ne by (unfold idx, NX; lia).
    unfold T2. apply list_lookup_total_insert_eq.
    rewrite Hl1. unfold idx, NX in *. lia.
  - rewrite (Hget (idx (NX - 2) 0)) by (unfold idx, NX; lia).
    rewrite HT'. rewrite list_lookup_total_insert_eq
      by (rewrite Hl2; unfold idx, NX in *; lia).
    unfold T2. apply list_lookup_total_insert_ne. unfold idx, NX. lia.
Qed.

Lemma pipeMask_boundary (p : Params) (i j : nat) :
  (i < NX)%nat -> (j < NY p)%nat ->
  i = 0%nat \/ i = (NX - 1)%nat \/ j = 0%nat \/ j = (NY p - 1)%nat ->
  pipeMask p !!! idx i j = 0%nat.
Proof.
  intros Hi Hj Hb. apply pipeMask_outside; [apply idx_lt; assumption|].
  intros a b Ha Hb2 E. apply idx_inj in E; [|exact Hi|lia]. lia.
Qed.

(** *** The field keeps its size *)

Lemma fill_length (v : R) (lo hi : nat) (arr : list R) :
  length (fill v lo hi arr) = length arr.
Proof.
  unfold fill. destruct (le_lt_dec lo hi) as [Hle|Hlt].
  - apply (for_invariant (fun (_ : nat) (a : list R) => length a = length arr));
      [exact Hle|reflexivity|].
    intros i s _ Hs. rewrite length_insert. exact Hs.
  - rewrite for_empty by lia. reflexivity.
Qed.

Lemma seedField_length (p : Params) (buf : list R) :
  length (seedField p buf) = length buf.
Proof.
  unfold seedField.
  apply (for_invariant (fun (_ : nat) (a : list R) => length a = length buf));
    [lia|reflexivity|].
  intros j s _ Hs. simpl. rewrite fill_length. exact Hs.
Qed.

Lemma T_init_length (p : Params) : length (T_init p) = (NX * NY p)%nat.
Proof. unfold T_init. rewrite seedField_length. apply length_replicate. Qed.

Lemma top_row_sweep_witness :
  topRow defaultParams (T_init defaultParams) !!! idx 0 0
  = topRow defaultParams (T_init defaultParams) !!! idx 1 0.
Proof.
  apply (top_row_sweep defaultParams (T_init defaultParams)
           (T_init_length defaultParams)).
Defined.

(** ** Flux metrics *)

Lemma sumTo_ext (n : nat) (f g : nat -> R) :
  (forall i, (i < n)%nat -> f i = g i) -> Spec.sumTo n f = Spec.sumTo n g.
Proof.
  induction n as [|n IH]; intros H; simpl; [reflexivity|].
  rewrite IH by (intros; apply H; lia). rewrite H by lia. reflexivity.
Qed.

(** A loop that adds [f i] to a running sum. *)
Lemma for_sum (n : nat) (f : nat -> R) (a : R) :
  for_ 0 n (fun i acc => acc + f i) a = a + Spec.sumTo n f.
Proof.
  induction n as [|n IH]; [rewrite for_empty by lia; simpl; lra|].
  rewrite for_last by lia. rewrite IH. simpl. lra.
Qed.

(** The same with an array filled on the side. *)
Lemma for_sum_snd (n : nat) (f : nat -> R) (st : list R * R) :
  snd (for_ 0 n (fun i st => (<[i := f i]> (fst st), snd st + f i)) st)
  = snd st + Spec.sumTo n f.
Proof.
  induction n as [|n IH]; [rewrite for_empty by lia; simpl; lra|].
  rewrite for_last by lia. simpl. rewrite IH. lra.
Qed.

Lemma surfaceT_at (T : list R) (i : nat) :
  (i < NX)%nat -> surfaceT T !!! i = T !!! idx i 0.
Proof.
  intros Hi. unfold surfaceT.
  apply (for_tabulate NX (fun i => T !!! idx i 0) i Hi).
Qed.

(** C7: the mean downward flux is the column mean of the one-sided
    difference -k_bottom (T(i,NY-1) - T(i,NY-2)) / dy with the bottom
    row's conductivity, and only its non-negative part is kept and
    reported; the total flux is the mean upward flux plus that part; the
    upward share is the mean upward flux over (total + 1e-9). *)
Theorem flux_metrics (p : Params) (T : list R) :
  qDownMean p T = Spec.columnMean (Spec.qDownAt p T)
  /\ qDownAbs p T = Rmax 0 (qDownMean p T)
  /\ 0 <= qDownAbs p T
  /\ qUpMean p T = Spec.columnMean (Spec.qUpAt p T)
  /\ qTotalPerArea p T = qUpMean p T + Rmax 0 (qDownMean p T)
  /\ upShare p T = qUpMean p T / (qTotalPerArea p T + 1e-9)
  /\ m_qDownMean (metrics (results p))
     = JS.toFixed 1 (Rmax 0 (qDownMean p (solveField p)))
  /\ m_qTotal (metrics (results p))
     = JS.toFixed 1 (qUpMean p (solveField p)
                     + Rmax 0 (qDownMean p (solveField p))).
Proof.
  split; [|split; [reflexivity|split; [|split; [|repeat split; reflexivity]]]].
  - unfold qDownMean, qDownSum, Spec.columnMean, Rdiv.
    apply Rmult_eq_compat_r.
    transitivity (0 + Spec.sumTo NX (Spec.qDownAt p T));
      [exact (for_sum NX (Spec.qDownAt p T) 0) | lra].
  - unfold qDownAbs, JS.max. apply Rmax_l.
  - unfold qUpMean, qUpSum, qUpLoop, Spec.columnMean, Rdiv.
    apply Rmult_eq_compat_r.
    transitivity (0 + Spec.sumTo NX (fun i => hEff p * (surfaceT T !!! i - Tair p)));
      [exact (for_sum_snd NX (fun i => hEff p * (surfaceT T !!! i - Tair p))
                (replicate NX 0, 0)) |].
    rewrite Rplus_0_l. apply sumTo_ext.
    intros i Hi. unfold Spec.qUpAt. rewrite surfaceT_at by exact Hi. reflexivity.
Qed.

(** *** Sweeps keep the size of the field *)

Lemma topRow_length (p : Params) (T : list R) : length (topRow p T) = length T.
Proof.
  unfold topRow. rewrite !length_insert.
  destruct (topLoop_spec p T) as (H & _). exact H.
Qed.

Lemma bottomRow_length (p : Params) (T : list R) :
  length (bottomRow p T) = length T.
Proof.
  unfold bottomRow.
  apply (for_invariant (fun (_ : nat) (s : list R) => length s = length T));
    [lia|reflexivity|].
  intros i s _ Hs. unfold bottomNode.
  destruct (decide _); rewrite length_insert; exact Hs.
Qed.

Lemma interiorRow_length (p : Params) (j : nat) (T : list R) :
  length (interiorRow p j T) = length T.
Proof.
  unfold interiorRow.
  apply (for_invariant (fun (_ : nat) (s : list R) => length s = length T));
    [lia|reflexivity|].
  intros i s _ Hs. unfold interiorNode.
  repeat destruct (decide _); rewrite length_insert; exact Hs.
Qed.

Lemma sweep_length (p : Params) (T : list R) : length (sweep p T) = length T.
Proof.
  unfold sweep.
  apply (for_invariant (fun (_ : nat) (s : list R) => length s = length T));
    [lia|reflexivity|].
  intros j s _ Hs. unfold sweepRow.
  repeat destruct (decide _);
    rewrite ?topRow_length, ?bottomRow_length, ?interiorRow_length; exact Hs.
Qed.

Lemma relax_length (p : Params) (T0 : list R) : length (relax p T0) = length T0.
Proof.
  unfold relax.
  apply (for_invariant (fun (_ : nat) (s : list R) => length s = length T0));
    [lia|reflexivity|].
  intros j s _ Hs. rewrite sweep_length. exact Hs.
Qed.

Lemma solveField_length (p : Params) : length (solveField p) = (NX * NY p)%nat.
Proof. unfold solveField. rewrite relax_length. apply T_init_length. Qed.

(** ** The seeding loop writes the whole field *)

(** Two runs of a loop, related step by step. *)
Lemma for_invariant2 {A : Type} (Rel : nat -> A -> A -> Prop)
    (lo hi : nat) (body : nat -> A -> A) (a1 a2 : A) :
  (lo <= hi)%nat ->
  Rel lo a1 a2 ->
  (forall i s1 s2, (lo <= i < hi)%nat -> Rel i s1 s2 ->
                   Rel (S i) (body i s1) (body i s2)) ->
  Rel hi (for_ lo hi body a1) (for_ lo hi body a2).
Proof.
  intros Hle H0 Hstep.
  apply (for_invariant
           (fun (i : nat) (s1 : A) => Rel i s1 (for_ lo i body a2)) lo hi body a1 Hle).
  - rewrite for_empty by lia. exact H0.
  - intros i s Hi Hs. rewrite for_last by lia. apply Hstep; assumption.
Qed.

(** Storing the same value at the same index of two lists of one length
    keeps every agreement and adds the index stored at. *)
Lemma insert_agree (s1 s2 : list R) (c d : nat) (v : R) :
  length s1 = length s2 ->
  d = c \/ s1 !! d = s2 !! d ->
  <[c := v]> s1 !! d = <[c := v]> s2 !! d.
Proof.
  intros Hlen H. rewrite !list_lookup_insert, Hlen.
  destruct (decide (c = d /\ (c < length s2)%nat)) as [_|Hn]; [reflexivity|].
  destruct H as [->|H]; [|exact H].
  rewrite !lookup_ge_None_2 by lia. reflexivity.
Qed.

(** [fill] on two buffers of one length: they agree on the filled range
    and wherever they agreed before. *)
Lemma fill_agree (v : R) (lo hi : nat) (s1 s2 : list R) :
  (lo <= hi)%nat -> length s1 = length s2 ->
  length (fill v lo hi s1) = length (fill v lo hi s2)
  /\ forall d, (lo <= d < hi)%nat \/ s1 !! d = s2 !! d ->
               fill v lo hi s1 !! d = fill v lo hi s2 !! d.
Proof.
  intros Hle Hlen. unfold fill.
  apply (for_invariant2
           (fun (c : nat) (a1 a2 : list R) =>
              length a1 = length a2
              /\ forall d, (lo <= d < c)%nat \/ s1 !! d = s2 !! d ->
                           a1 !! d = a2 !! d)); [exact Hle| |].
  - split; [exact Hlen|]. intros d [Hd|Hd]; [lia|exact Hd].
  - intros c a1 a2 Hc [Hl Hag]. split; [rewrite !length_insert; exact Hl|].
    intros d Hd. apply insert_agree; [exact Hl|].
    destruct (decide (d = c)) as [->|Hne]; [left; reflexivity|right].
    apply Hag. destruct Hd as [Hd|Hd]; [left; lia|right; exact Hd].
Qed.

(** The seeding loop overwrites the whole buffer. *)
Lemma seedField_overwrites (p : Params) (buf1 buf2 : list R) :
  length buf1 = (NX * NY p)%nat -> length buf2 = (NX * NY p)%nat ->
  seedField p buf1 = seedField p buf2.
Proof.
  intros H1 H2.
  assert (H : length (seedField p buf1) = length (seedField p buf2)
              /\ forall d, (d < NY p * NX)%nat ->
                           seedField p buf1 !! d = seedField p buf2 !! d).
  { unfold seedField.
    apply (for_invariant2
             (fun (j : nat) (a1 a2 : list R) =>
                length a1 = length a2
                /\ forall d, (d < j * NX)%nat -> a1 !! d = a2 !! d)); [lia| |].
    - split; [congruence|]. intros d Hd. lia.
    - intros j a1 a2 Hj [Hl Hag]. simpl.
      destruct (fill_agree
                  (belowT p * (1 - (1 - INR j / (INR (NY p) - 1)))
                   + Tair p * (1 - INR j / (INR (NY p) - 1)))
                  (j * NX) ((j + 1) * NX) a1 a2) as [Hl' Hag'];
        [unfold NX; lia|exact Hl|].
      split; [exact Hl'|]. intros d Hd. apply Hag'.
      destruct (le_lt_dec (j * NX) d) as [Hge|Hlt]; [left; unfold NX in *; lia|].
      right. apply Hag, Hlt. }
  destruct H as [Hl Hag]. apply list_eq. intros d.
  destruct (le_lt_dec (NY p * NX) d) as [Hge|Hlt]; [|apply Hag, Hlt].
  rewrite !lookup_ge_None_2; [reflexivity| |].
  - rewrite seedField_length, H2. lia.
  - rewrite seedField_length, H1. lia.
Qed.

(** ** The seeded field *)

Lemma fill_lookup (v : R) (lo hi : nat) (arr : list R) (c : nat) :
  (lo <= hi)%nat -> (hi <= length arr)%nat ->
  fill v lo hi arr !!! c = if decide (lo <= c < hi)%nat then v else arr !!! c.
Proof.
  intros Hle Hlen. unfold fill.
  pose (P := fun (k : nat) (a : list R) =>
               length a = length arr
               /\ forall d, a !!! d
                            = if decide (lo <= d < k)%nat then v else arr !!! d).
  assert (H : P hi (for_ lo hi (fun c a => <[c := v]> a) arr)).
  { apply for_invariant; [exact Hle| |].
    - split; [reflexivity|]. intros d.
      destruct (decide (lo <= d < lo)%nat); [lia|reflexivity].
    - intros k s Hk [Hl Hs]. split; [rewrite length_insert; exact Hl|].
      intros d. destruct (decide (d = k)) as [->|Hne].
      + rewrite list_lookup_total_insert_eq by lia.
        destruct (decide (lo <= k < S k)%nat); [reflexivity|lia].
      + rewrite list_lookup_total_insert_ne by congruence. rewrite Hs.
        destruct (decide (lo <= d < k)%nat), (decide (lo <= d < S k)%nat);
          try reflexivity; lia. }
  destruct H as [_ H]. apply H.
Qed.

Lemma T_init_at (p : Params) (i j : nat) :
  (i < NX)%nat -> (j < NY p)%nat -> T_init p !!! idx i j = seedRow p j.
Proof.
  intros Hi Hj. unfold T_init, seedField.
  pose (P := fun (k : nat) (s : list R) =>
               length s = (NX * NY p)%nat
               /\ forall i' j', (i' < NX)%nat -> (j' < k)%nat ->
                                s !!! idx i' j' = seedRow p j').
  assert (H : P (NY p)
                (for_ 0 (NY p)
                   (fun j a =>
                      let frac := 1 - INR j / (INR (NY p) - 1) in
                      let Tv := belowT p * (1 - frac) + Tair p * frac in
                      fill Tv (j * NX) ((j + 1) * NX) a)
                   (replicate (NX * NY p) 0))).
  { apply for_invariant; [lia| |].
    - split; [apply length_replicate|]. intros; lia.
    - intros k s Hk [Hl Hs]. simpl. split; [rewrite fill_length; exact Hl|].
      intros i' j' Hi' Hj'.
      rewrite fill_lookup by (rewrite ?Hl; unfold NX; nia).
      destruct (decide (k * NX <= idx i' j' < (k + 1) * NX)%nat) as [Hin|Hout].
      + assert (j' = k) by (unfold idx, NX in *; nia). subst j'. reflexivity.
      + apply Hs; [exact Hi'|]. unfold idx, NX in *. nia. }
  destruct H as [_ H]. apply H; assumption.
Qed.

Lemma INR_NY_minus1 (p : Params) : 2 <= INR (NY p) - 1.
Proof.
  pose proof (NYz_range p) as H. rewrite INR_NY.
  assert (3 <= IZR (NYz p)) by (apply IZR_le; lia). lra.
Qed.

(** X1: the seeded field is constant along every row, equal to the air
    temperature on the top row and to the below-insulation temperature on
    the bottom row, and in between it lies between those two. *)
Theorem seed_field_rows (p : Params) (i j : nat) :
  (i < NX)%nat -> (j < NY p)%nat ->
  T_init p !!! idx i j = T_init p !!! idx 0 j
  /\ T_init p !!! idx i 0 = Tair p
  /\ T_init p !!! idx i (NY p - 1) = belowT p
  /\ Rmin (Tair p) (belowT p) <= T_init p !!! idx i j <= Rmax (Tair p) (belowT p).
Proof.
  intros Hi Hj. pose proof (NY_range p) as HNY. pose proof (INR_NY_minus1 p) as Hn.
  rewrite !T_init_at by (assumption || lia || (unfold NX; lia)).
  split; [reflexivity|]. split; [|split].
  - unfold seedRow. simpl. unfold Rdiv. rewrite Rmult_0_l. lra.
  - unfold seedRow. rewrite minus_INR by lia. simpl.
    replace ((INR (NY p) - 1) / (INR (NY p) - 1)) with 1 by (field; lra). lra.
  - unfold seedRow.
    assert (Hf : 0 <= INR j / (INR (NY p) - 1) <= 1).
    { assert (0 <= INR j) by apply pos_INR.
      assert (INR j <= INR (NY p) - 1).
      { replace (INR (NY p) - 1) with (INR (NY p - 1)) by (rewrite minus_INR by lia; simpl; lra).
        apply le_INR. lia. }
      split.
      - unfold Rdiv. apply Rmult_le_pos; [lra|].
        left. apply Rinv_0_lt_compat. lra.
      - apply Rmult_le_reg_r with (INR (NY p) - 1); [lra|].
        unfold Rdiv. rewrite Rmult_assoc, Rinv_l by lra. lra. }
    set (f := INR j / (INR (NY p) - 1)) in *.
    unfold Rmin, Rmax. destruct (Rle_dec (Tair p) (belowT p)); split; nra.
Qed.

Lemma seed_field_rows_witness :
  T_init defaultParams !!! idx 5 0 = Tair defaultParams.
Proof.
  pose proof (NY_range defaultParams) as HNY.
  apply (seed_field_rows defaultParams 5 0); [unfold NX; lia | lia].
Defined.

(** ** Row loops of a sweep *)

Lemma for_ext {A : Type} (lo hi : nat) (body body' : nat -> A -> A) (a : A) :
  (forall i s, body i s = body' i s) ->
  for_ lo hi body a = for_ lo hi body' a.
Proof.
  intros H. unfold for_. revert a.
  induction (seq lo (hi - lo)) as [|i l IH]; intros a; simpl; [reflexivity|].
  rewrite H. apply IH.
Qed.

Lemma rowLoop_length (j : nat) (v : nat -> list R -> R) (n : nat) (T : list R) :
  length (rowLoop j v n T) = length T.
Proof.
  unfold rowLoop.
  apply (for_invariant (fun (_ : nat) (s : list R) => length s = length T));
    [lia|reflexivity|].
  intros i s _ Hs. rewrite length_insert. exact Hs.
Qed.

Lemma rowLoop_frame (j : nat) (v : nat -> list R -> R) (n : nat) (T : list R) (c : nat) :
  (forall i, (i < n)%nat -> c <> idx i j) -> rowLoop j v n T !!! c = T !!! c.
Proof.
  intros Hc. unfold rowLoop.
  apply (for_invariant (fun (k : nat) (s : list R) => (k <= n)%nat -> s !!! c = T !!! c)
           0 n _ T); [lia|reflexivity| |lia].
  intros i s Hi Hs _. rewrite list_lookup_total_insert_ne.
  - apply Hs. lia.
  - intros E. apply (Hc i); [lia|]. congruence.
Qed.

Lemma rowLoop_last (j : nat) (v : nat -> list R -> R) (n : nat) (T : list R) :
  rowLoop j v (S n) T = <[idx n j := v n (rowLoop j v n T)]> (rowLoop j v n T).
Proof. unfold rowLoop. rewrite for_last by lia. reflexivity. Qed.

(** The value found in column [i] after the loop is the one stored at
    iteration [i], computed from the state the loop had reached then. *)
Lemma rowLoop_at (j : nat) (v : nat -> list R -> R) (n : nat) (T : list R) (i : nat) :
  (i < n)%nat -> (idx i j < length T)%nat ->
  rowLoop j v n T !!! idx i j = v i (rowLoop j v i T).
Proof.
  intros Hi Hlen. induction n as [|n IH]; [lia|].
  rewrite rowLoop_last. destruct (decide (i = n)) as [->|Hne].
  - apply list_lookup_total_insert_eq. rewrite rowLoop_length. exact Hlen.
  - rewrite list_lookup_total_insert_ne by (unfold idx; lia). apply IH. lia.
Qed.

Lemma interiorNode_value (p : Params) (j i : nat) (T : list R) :
  interiorNode p j i T = <[idx i j := interiorValue p j i T]> T.
Proof.
  unfold interiorNode, interiorValue.
  destruct (decide (i = 0%nat)) as [->|]; [reflexivity|].
  destruct (decide (i = (NX - 1)%nat)) as [->|]; [reflexivity|].
  destruct (decide _); reflexivity.
Qed.

Lemma interiorRow_rowLoop (p : Params) (j : nat) (T : list R) :
  interiorRow p j T = rowLoop j (fun i s => interiorValue p j i s) NX T.
Proof. unfold interiorRow, rowLoop. apply for_ext. intros. apply interiorNode_value. Qed.

Lemma bottomNode_value (p : Params) (i : nat) (T : list R) :
  (i < NX)%nat -> bottomNode p i T = <[idx i (NY p - 1) := belowT p]> T.
Proof.
  intros Hi. pose proof (NY_range p) as HNY. unfold bottomNode.
  rewrite pipeMask_boundary by (lia || auto).
  destruct (decide (0%nat ≠ 0%nat)); [congruence|reflexivity].
Qed.

Lemma bottomRow_rowLoop (p : Params) (T : list R) :
  bottomRow p T = rowLoop (NY p - 1) (fun _ _ => belowT p) NX T.
Proof.
  unfold bottomRow, rowLoop, for_.
  generalize T. assert (H : Forall (fun i => (i < NX)%nat) (seq 0 (NX - 0))).
  { apply Forall_forall. intros i Hi. apply list_elem_of_In, in_seq in Hi. lia. }
  induction H as [|i l Hi _ IH]; intros T0; simpl; [reflexivity|].
  rewrite bottomNode_value by exact Hi. apply IH.
Qed.

Lemma topRow_rowLoop (p : Params) (T : list R) :
  for_ 0 NX (topNode p) T = rowLoop 0 (fun i s => topValue p s i) NX T.
Proof. unfold rowLoop. apply for_ext. intros. apply topNode_value. Qed.

(** A row of a sweep writes inside that row only. *)
Lemma sweepRow_frame (p : Params) (j : nat) (T : list R) (c : nat) :
  (forall i, (i < NX)%nat -> c <> idx i j) -> sweepRow p j T !!! c = T !!! c.
Proof.
  intros Hc. unfold sweepRow.
  destruct (decide (j = 0%nat)) as [->|Hj0].
  - unfold topRow.
    rewrite list_lookup_total_insert_ne
      by (intros E; apply (Hc (NX - 1)%nat); [unfold NX; lia|congruence]).
    rewrite list_lookup_total_insert_ne
      by (intros E; apply (Hc 0%nat); [unfold NX; lia|congruence]).
    rewrite topRow_rowLoop. apply rowLoop_frame. exact Hc.
  - destruct (decide (j = (NY p - 1)%nat)) as [->|Hj1].
    + rewrite bottomRow_rowLoop. apply rowLoop_frame. exact Hc.
    + rewrite interiorRow_rowLoop. apply rowLoop_frame. exact Hc.
Qed.

Lemma sweepRow_length (p : Params) (j : nat) (T : list R) :
  length (sweepRow p j T) = length T.
Proof.
  unfold sweepRow. repeat destruct (decide _);
    rewrite ?topRow_length, ?bottomRow_length, ?interiorRow_length; reflexivity.
Qed.

(** A property of row [j] alone that holds right after the row has been
    swept still holds at the end of the pass, and at the end of the
    solve. *)
Lemma sweep_row_property (p : Params) (j : nat) (Q : list R -> Prop) (T : list R) :
  (j < NY p)%nat -> length T = (NX * NY p)%nat ->
  (forall S0 S1, (forall i, (i < NX)%nat -> S1 !!! idx i j = S0 !!! idx i j) ->
                 Q S0 -> Q S1) ->
  (forall S0, length S0 = (NX * NY p)%nat -> Q (sweepRow p j S0)) ->
  Q (sweep p T).
Proof.
  intros Hj Hlen Hloc Hrow. unfold sweep.
  assert (H : length (for_ 0 (NY p) (sweepRow p) T) = (NX * NY p)%nat
              /\ ((j < NY p)%nat -> Q (for_ 0 (NY p) (sweepRow p) T))).
  { apply (for_invariant
             (fun (k : nat) (s : list R) =>
                length s = (NX * NY p)%nat /\ ((j < k)%nat -> Q s))); [lia| |].
    - split; [exact Hlen|lia].
    - intros k s Hk [Hl HQ].
      split; [rewrite sweepRow_length; exact Hl|]. intros Hjk.
      destruct (decide (k = j)) as [->|Hne]; [apply Hrow, Hl|].
      apply (Hloc s); [|apply HQ; lia].
      intros i Hi. apply sweepRow_frame. intros i' Hi' E.
      apply idx_inj in E; [lia|exact Hi|exact Hi']. }
  apply H, Hj.
Qed.

Lemma solve_row_property (p : Params) (j : nat) (Q : list R -> Prop) :
  (j < NY p)%nat ->
  (forall S0 S1, (forall i, (i < NX)%nat -> S1 !!! idx i j = S0 !!! idx i j) ->
                 Q S0 -> Q S1) ->
  (forall S0, length S0 = (NX * NY p)%nat -> Q (sweepRow p j S0)) ->
  Q (solveField p).
Proof.
  intros Hj Hloc Hrow. unfold solveField, relax.
  replace iters with (S (iters - 1)) by reflexivity.
  rewrite for_last by lia.
  apply (sweep_row_property p j); try assumption.
  apply (for_invariant (fun (_ : nat) (s : list R) => length s = (NX * NY p)%nat));
    [lia|apply T_init_length|].
  intros k s _ Hs. rewrite sweep_length. exact Hs.
Qed.

(** ** Boundary rows and edge columns of the solved field *)

Lemma sweepRow_bottom (p : Params) (T : list R) :
  sweepRow p (NY p - 1) T = rowLoop (NY p - 1) (fun _ _ => belowT p) NX T.
Proof.
  pose proof (NY_range p) as HNY. unfold sweepRow.
  destruct (decide ((NY p - 1)%nat = 0%nat)); [lia|].
  destruct (decide ((NY p - 1)%nat = (NY p - 1)%nat)); [|congruence].
  apply bottomRow_rowLoop.
Qed.

Lemma sweepRow_interior (p : Params) (j : nat) (T : list R) :
  (0 < j < NY p - 1)%nat ->
  sweepRow p j T = rowLoop j (fun i s => interiorValue p j i s) NX T.
Proof.
  intros Hj. unfold sweepRow.
  destruct (decide (j = 0%nat)); [lia|].
  destruct (decide (j = (NY p - 1)%nat)); [lia|].
  apply interiorRow_rowLoop.
Qed.

(** X2: the bottom row of the field is the below-insulation temperature
    in every column after each pass, hence in the solved field. *)
Theorem solved_bottom_row (p : Params) (i : nat) :
  (i < NX)%nat ->
  (forall T : list R, length T = (NX * NY p)%nat ->
     sweep p T !!! idx i (NY p - 1) = belowT p)
  /\ solveField p !!! idx i (NY p - 1) = belowT p.
Proof.
  intros Hi. pose proof (NY_range p) as HNY.
  assert (Hrow : forall S0, length S0 = (NX * NY p)%nat ->
            sweepRow p (NY p - 1) S0 !!! idx i (NY p - 1) = belowT p).
  { intros S0 Hl. rewrite sweepRow_bottom.
    rewrite rowLoop_at; [reflexivity|exact Hi|].
    rewrite Hl. apply idx_lt; [exact Hi|lia]. }
  assert (Hloc : forall S0 S1 : list R,
            (forall i', (i' < NX)%nat ->
                        S1 !!! idx i' (NY p - 1) = S0 !!! idx i' (NY p - 1)) ->
            S0 !!! idx i (NY p - 1) = belowT p ->
            S1 !!! idx i (NY p - 1) = belowT p).
  { intros S0 S1 H H0. rewrite H by exact Hi. exact H0. }
  split.
  - intros T Hl.
    apply (sweep_row_property p (NY p - 1)
             (fun S0 => S0 !!! idx i (NY p - 1) = belowT p)); auto. lia.
  - apply (solve_row_property p (NY p - 1)
             (fun S0 => S0 !!! idx i (NY p - 1) = belowT p)); auto. lia.
Qed.

Lemma solved_bottom_row_witness :
  solveField defaultParams !!! idx 7 (NY defaultParams - 1) = belowT defaultParams.
Proof. apply (solved_bottom_row defaultParams 7). unfold NX. lia. Defined.

Lemma sweepRow_right_edge (p : Params) (j : nat) (T : list R) :
  (j < NY p)%nat -> length T = (NX * NY p)%nat ->
  sweepRow p j T !!! idx (NX - 1) j = sweepRow p j T !!! idx (NX - 2) j.
Proof.
  intros Hj Hl. pose proof (NY_range p) as HNY.
  assert (Hin : forall i, (i < NX)%nat -> (idx i j < length T)%nat).
  { intros i Hi. rewrite Hl. apply idx_lt; assumption. }
  destruct (decide (j = 0%nat)) as [->|Hj0].
  - unfold sweepRow. destruct (decide (0%nat = 0%nat)); [|congruence].
    unfold topRow.
    rewrite list_lookup_total_insert_eq
      by (rewrite length_insert, topRow_rowLoop, rowLoop_length;
          apply Hin; unfold NX; lia).
    symmetry. apply list_lookup_total_insert_ne. unfold idx, NX. lia.
  - destruct (decide (j = (NY p - 1)%nat)) as [->|Hj1].
    + rewrite sweepRow_bottom.
      rewrite !rowLoop_at by (apply Hin || idtac; unfold NX; lia). reflexivity.
    + rewrite sweepRow_interior by lia.
      set (v := fun (i : nat) (s : list R) => interiorValue p j i s).
      assert (E : rowLoop j v NX T
                  = <[idx (NX - 1) j := v (NX - 1)%nat (rowLoop j v (NX - 1) T)]>
                      (rowLoop j v (NX - 1) T))
        by apply (rowLoop_last j v (NX - 1) T).
      rewrite E. unfold v.
      rewrite list_lookup_total_insert_eq
        by (rewrite rowLoop_length; apply Hin; unfold NX; lia).
      rewrite list_lookup_total_insert_ne by (unfold idx, NX; lia).
      unfold interiorValue.
      destruct (decide ((NX - 1)%nat = 0%nat)); [unfold NX in *; lia|].
      destruct (decide ((NX - 1)%nat = (NX - 1)%nat)); [reflexivity|congruence].
Qed.

(** X3: in the solved field the right edge column mirrors its neighbour
    in every row, and the top-left corner mirrors its neighbour; in an
    interior row the left edge instead receives the value its neighbour
    had before the row was swept. *)
Theorem solved_edge_columns (p : Params) (j : nat) :
  (j < NY p)%nat ->
  solveField p !!! idx (NX - 1) j = solveField p !!! idx (NX - 2) j
  /\ solveField p !!! idx 0 0 = solveField p !!! idx 1 0
  /\ (forall T : list R, length T = (NX * NY p)%nat -> (0 < j < NY p - 1)%nat ->
        interiorRow p j T !!! idx 0 j = T !!! idx 1 j).
Proof.
  intros Hj. pose proof (NY_range p) as HNY. split; [|split].
  - apply (solve_row_property p j
             (fun S0 => S0 !!! idx (NX - 1) j = S0 !!! idx (NX - 2) j)); [exact Hj| |].
    + intros S0 S1 H H0. rewrite !H by (unfold NX; lia). exact H0.
    + intros S0 Hl. apply sweepRow_right_edge; assumption.
  - apply (solve_row_property p 0
             (fun S0 => S0 !!! idx 0 0 = S0 !!! idx 1 0)); [lia| |].
    + intros S0 S1 H H0. rewrite !H by (unfold NX; lia). exact H0.
    + intros S0 Hl. unfold sweepRow. destruct (decide (0%nat = 0%nat)); [|congruence].
      unfold topRow.
      rewrite !(list_lookup_total_insert_ne _ (idx (NX - 1) 0)) by (unfold idx, NX; lia).
      rewrite list_lookup_total_insert_eq
        by (rewrite topRow_rowLoop, rowLoop_length, Hl; unfold idx, NX; lia).
      symmetry. apply list_lookup_total_insert_ne. unfold idx, NX. lia.
  - intros T Hl Hint. rewrite interiorRow_rowLoop.
    rewrite rowLoop_at by (rewrite ?Hl; unfold idx, NX; lia).
    unfold rowLoop. rewrite for_empty by lia.
    unfold interiorValue. destruct (decide (0%nat = 0%nat)); [reflexivity|congruence].
Qed.

Lemma solved_edge_columns_witness :
  solveField defaultParams !!! idx (NX - 1) 1
  = solveField defaultParams !!! idx (NX - 2) 1.
Proof.
  pose proof (NY_range defaultParams) as HNY.
  apply (solved_edge_columns defaultParams 1). lia.
Defined.

(** X4: unless the underlay is a mounting mat, every masked node of the
    solved field holds the boundary temperature of its pipe. *)
Theorem solved_pipe_nodes (p : Params) (i j : nat) :
  under_type (under p) <> "mat" ->
  (i < NX)%nat -> (j < NY p)%nat -> pipeMask p !!! idx i j <> 0%nat ->
  solveField p !!! idx i j = TpipeOf p (idx i j).
Proof.
  intros Hmat Hi Hj Hmask. pose proof (NY_range p) as HNY.
  assert (Hint : (0 < i < NX - 1)%nat /\ (0 < j < NY p - 1)%nat).
  { destruct (decide (i = 0%nat \/ i = (NX - 1)%nat \/ j = 0%nat \/ j = (NY p - 1)%nat))
      as [Hb|Hb]; [|lia].
    exfalso. apply Hmask. apply pipeMask_boundary; assumption. }
  apply (solve_row_property p j (fun S0 => S0 !!! idx i j = TpipeOf p (idx i j)));
    [exact Hj| |].
  - intros S0 S1 H H0. rewrite H by exact Hi. exact H0.
  - intros S0 Hl. rewrite sweepRow_interior by lia.
    rewrite rowLoop_at by (rewrite ?Hl; try apply idx_lt; assumption).
    unfold interiorValue.
    destruct (decide (i = 0%nat)); [lia|].
    destruct (decide (i = (NX - 1)%nat)); [lia|].
    destruct (decide (pipeMask p !!! idx i j ≠ 0%nat)); [|contradiction].
    unfold pipeNodeValue.
    destruct (decide (under_type (under p) = "mat")); [contradiction|reflexivity].
Qed.

(** ** Mask and label arrays *)

Lemma marked_weaken (p : Params) (vis vis' : nat -> nat -> Prop) (ml : list nat * list Z) :
  (forall i j, (1 <= i < NX - 1)%nat -> (1 <= j < NY p - 1)%nat -> (vis i j <-> vis' i j)) ->
  marked p vis ml -> marked p vis' ml.
Proof.
  intros Heq (H1 & H2 & H). repeat split; try assumption.
  - intros Hv. apply H; [assumption..|]. apply Heq; assumption.
  - intros Hv. apply H; [assumption..|]. intros Hv'. apply Hv, Heq; assumption.
Qed.

Lemma markNode_marked (p : Params) (i j : nat) (vis : nat -> nat -> Prop)
    (ml : list nat * list Z) :
  (1 <= i < NX - 1)%nat -> (1 <= j < NY p - 1)%nat -> ~ vis i j ->
  marked p vis ml ->
  marked p (fun i' j' => vis i' j' \/ (i' = i /\ j' = j)) (markNode p i j ml).
Proof.
  intros Hi Hj Hnv (H1 & H2 & H).
  assert (Hlt : (idx i j < NX * NY p)%nat) by (apply idx_lt; lia).
  assert (Hhere : (fst (markNode p i j ml) !!! idx i j,
                   snd (markNode p i j ml) !!! idx i j) = markOf p i j).
  { unfold markNode, markOf. destruct (pipeHit _ _ _) as [k|]; simpl.
    - rewrite !list_lookup_total_insert_eq by lia. reflexivity.
    - apply H; assumption. }
  assert (Hother : forall i' j', (i' < NX)%nat -> (i', j') <> (i, j) ->
            (fst (markNode p i j ml) !!! idx i' j',
             snd (markNode p i j ml) !!! idx i' j')
            = (fst ml !!! idx i' j', snd ml !!! idx i' j')).
  { intros i' j' Hi' Hne.
    assert (idx i j <> idx i' j').
    { intros E. apply idx_inj in E; [|lia|exact Hi']. destruct E; congruence. }
    unfold markNode. destruct (pipeHit _ _ _); simpl; [|reflexivity].
    rewrite !list_lookup_total_insert_ne by assumption. reflexivity. }
  split; [|split].
  - unfold markNode. destruct (pipeHit _ _ _); simpl; rewrite ?length_insert; exact H1.
  - unfold markNode. destruct (pipeHit _ _ _); simpl; rewrite ?length_insert; exact H2.
  - intros i' j' Hi' Hj'. destruct (decide ((i', j') = (i, j))) as [E|Hne].
    + injection E as -> ->. split; [intros _; exact Hhere|]. intros Hv. exfalso. auto.
    + rewrite Hother by (lia || assumption). split.
      * intros [Hv|[-> ->]]; [apply H; assumption|congruence].
      * intros Hv. apply H; [assumption..|]. auto.
Qed.

Lemma pipeArrays_marked (p : Params) :
  marked p (fun _ _ => True) (pipeArrays p).
Proof.
  pose proof (NY_range p) as HNY. unfold pipeArrays.
  apply (marked_weaken p (fun _ j => (j < NY p - 1)%nat)); [intros; split; auto; lia|].
  apply (for_invariant (fun (J : nat) ml => marked p (fun _ j => (j < J)%nat) ml));
    [lia| |].
  - simpl. split; [apply length_replicate|]. split; [apply length_replicate|].
    intros i j Hi Hj. simpl. split; [lia|]. intros _.
    rewrite !lookup_total_replicate_2 by (apply idx_lt; lia). reflexivity.
  - intros J ml HJ Hml.
    apply (marked_weaken p (fun i j => (j < J)%nat \/ (j = J /\ (i < NX - 1)%nat)));
      [intros; lia|].
    apply (for_invariant
             (fun (I : nat) ml' =>
                marked p (fun i j => (j < J)%nat \/ (j = J /\ (i < I)%nat)) ml'));
      [unfold NX; lia| |].
    + apply (marked_weaken p (fun _ j => (j < J)%nat)); [intros; lia|exact Hml].
    + intros I ml' HI Hml'.
      apply (marked_weaken p
               (fun i j => ((j < J)%nat \/ (j = J /\ (i < I)%nat)) \/ (i = I /\ j = J)));
        [intros; lia|].
      apply markNode_marked; [lia|lia|lia|exact Hml'].
Qed.

Lemma pipeHit_spec (p : Params) (x y : R) :
  match pipeHit p x y with
  | Some k =>
      exists c, pipeCenters p !! k = Some c
                /\ JS.hypot (x - fst c) (y - snd c) <= r p
                /\ forall m c', pipeCenters p !! m = Some c' -> (m < k)%nat ->
                                ~ JS.hypot (x - fst c') (y - snd c') <= r p
  | None =>
      forall m c', pipeCenters p !! m = Some c' ->
                   ~ JS.hypot (x - fst c') (y - snd c') <= r p
  end.
Proof.
  unfold pipeHit.
  destruct (list_find _ (pipeCenters p)) as [[k c]|] eqn:E; simpl.
  - apply list_find_Some in E as (H1 & H2 & H3). exists c.
    split; [exact H1|]. split; [exact H2|].
    intros m c' Hm Hlt. apply (H3 m c' Hm Hlt).
  - apply list_find_None in E. intros m c' Hm.
    rewrite Forall_forall in E. apply E. eapply list_elem_of_lookup_2. exact Hm.
Qed.

Lemma pipeCenters_lookup (p : Params) (k : nat) (c : R * R) :
  pipeCenters p !! k = Some c ->
  (k < nCenters p)%nat /\ c = ((INR k + 0.5) * S_ p, pipeCenterY p).
Proof.
  unfold pipeCenters. rewrite list_lookup_fmap. intros H.
  destruct (seq 0 (nCenters p) !! k) as [k'|] eqn:E; [|discriminate].
  apply lookup_seq in E as [-> Hk]. simpl in H. injection H as <-.
  split; [exact Hk|reflexivity].
Qed.

(** X5: the mask and label arrays agree: a boundary node has mask 0 and
    label -1; an interior node has mask 1 and the label of the first pipe
    whose disc contains it, or mask 0 and label -1 when no disc does; with
    at most 128 pipes the label of a masked node is that pipe's index, so
    the mean-temperature fallback for a negative label is never used. *)
Theorem mask_label_agree (p : Params) (i j : nat) :
  (i < NX)%nat -> (j < NY p)%nat ->
  ((pipeMask p !!! idx i j = 0%nat /\ pipeLabel p !!! idx i j = (-1)%Z)
   \/ (exists k c, (1 <= i < NX - 1)%nat /\ (1 <= j < NY p - 1)%nat
         /\ pipeHit p (INR i * dx p) (INR j * dy p) = Some k
         /\ pipeCenters p !! k = Some c
         /\ JS.hypot (INR i * dx p - fst c) (INR j * dy p - snd c) <= r p
         /\ pipeMask p !!! idx i j = 1%nat
         /\ pipeLabel p !!! idx i j = JS.toInt8 (Z.of_nat k)
         /\ ((nCenters p <= 128)%nat -> pipeLabel p !!! idx i j = Z.of_nat k)))
  /\ ((1 <= i < NX - 1)%nat -> (1 <= j < NY p - 1)%nat ->
      (pipeMask p !!! idx i j, pipeLabel p !!! idx i j) = markOf p i j).
Proof.
  intros Hi Hj. pose proof (NY_range p) as HNY.
  destruct (pipeArrays_marked p) as (H1 & H2 & H).
  assert (Hint : (1 <= i < NX - 1)%nat -> (1 <= j < NY p - 1)%nat ->
            (pipeMask p !!! idx i j, pipeLabel p !!! idx i j) = markOf p i j).
  { intros Hi' Hj'. apply (H i j Hi' Hj'). exact I. }
  split; [|exact Hint].
  destruct (decide ((1 <= i < NX - 1)%nat /\ (1 <= j < NY p - 1)%nat)) as [[Hi' Hj']|Hb].
  - specialize (Hint Hi' Hj'). unfold markOf in Hint.
    pose proof (pipeHit_spec p (INR i * dx p) (INR j * dy p)) as Hs.
    destruct (pipeHit p (INR i * dx p) (INR j * dy p)) as [k|] eqn:E.
    + right. destruct Hs as (c & Hc & Hin & _). injection Hint as Hm Hlab.
      exists k, c. repeat split; try assumption; try lia.
      intros Hn. rewrite Hlab. apply pipeCenters_lookup in Hc as [Hk _].
      unfold JS.toInt8. rewrite Z.mod_small by lia. lia.
    + left. injection Hint as Hm Hlab. split; assumption.
  - left. split.
    + apply pipeMask_boundary; [exact Hi|exact Hj|lia].
    + unfold pipeLabel, pipeArrays.
      apply (for_invariant
               (fun (_ : nat) (ml : list nat * list Z) =>
                  snd ml !!! idx i j = (-1)%Z)); [lia| |].
      * simpl. apply lookup_total_replicate_2. apply idx_lt; assumption.
      * intros J s HJ Hs.
        apply (for_invariant
                 (fun (_ : nat) (ml : list nat * list Z) =>
                    snd ml !!! idx i j = (-1)%Z)); [unfold NX; lia|exact Hs|].
        intros I s' HI Hs'. unfold markNode.
        destruct (pipeHit _ _ _); simpl; [|exact Hs'].
        rewrite list_lookup_total_insert_ne; [exact Hs'|].
        intros E. apply idx_inj in E; [lia|lia|exact Hi].
Qed.

Lemma mask_label_agree_witness :
  pipeMask defaultParams !!! idx 0 0 = 0%nat
  /\ pipeLabel defaultParams !!! idx 0 0 = (-1)%Z.
Proof.
  pose proof (NY_range defaultParams) as HNY.
  destruct (mask_label_agree defaultParams 0 0) as [[H|H] _];
    [unfold NX; lia | lia | exact H |].
  destruct H as (k & c & Hi & _). lia.
Defined.

(** ** Pipe discs *)

Lemma hypot_ge_abs (a b : R) : Rabs a <= JS.hypot a b.
Proof.
  unfold JS.hypot. rewrite <- sqrt_Rsqr_abs. apply sqrt_le_1_alt.
  unfold Rsqr. nra.
Qed.

Lemma hypot_le (a b c : R) : 0 <= c -> a * a + b * b <= c * c -> JS.hypot a b <= c.
Proof.
  intros Hc H. unfold JS.hypot. rewrite <- (sqrt_square c Hc).
  apply sqrt_le_1_alt. exact H.
Qed.

Lemma INR_apart (k m : nat) : k <> m -> 1 <= Rabs (INR k - INR m).
Proof.
  intros Hne. destruct (lt_dec k m) as [Hlt|Hge].
  - assert (INR (S k) <= INR m) by (apply le_INR; lia).
    rewrite S_INR in H. rewrite Rabs_left by lra. lra.
  - assert (INR (S m) <= INR k) by (apply le_INR; lia).
    rewrite S_INR in H. rewrite Rabs_right by lra. lra.
Qed.

Lemma pipe_discs_apart (p : Params) (k m : nat) (ck cm : R * R) (x y : R) :
  pipeCenters p !! k = Some ck -> pipeCenters p !! m = Some cm ->
  JS.hypot (x - fst ck) (y - snd ck) <= r p ->
  JS.hypot (x - fst cm) (y - snd cm) <= r p ->
  k = m.
Proof.
  intros Hk Hm H1 H2.
  apply pipeCenters_lookup in Hk as [_ ->]. apply pipeCenters_lookup in Hm as [_ ->].
  simpl in *.
  pose proof (hypot_ge_abs (x - (INR k + 0.5) * S_ p) (y - pipeCenterY p)) as A1.
  pose proof (hypot_ge_abs (x - (INR m + 0.5) * S_ p) (y - pipeCenterY p)) as A2.
  pose proof (S_range p) as HS. pose proof (D_range p) as HD. unfold r in *.
  destruct (decide (k = m)) as [E|Hne]; [exact E|exfalso].
  pose proof (INR_apart k m Hne) as Hap.
  assert (Hd : Rabs ((INR k - INR m) * S_ p) <= D p).
  { replace ((INR k - INR m) * S_ p)
      with ((x - (INR m + 0.5) * S_ p) - (x - (INR k + 0.5) * S_ p)) by ring.
    eapply Rle_trans; [apply Rabs_triang|]. rewrite Rabs_Ropp. lra. }
  rewrite Rabs_mult, (Rabs_right (S_ p)) in Hd by lra. nra.
Qed.

Lemma pipeHit_iff (p : Params) (k : nat) (c : R * R) (x y : R) :
  pipeCenters p !! k = Some c ->
  (JS.hypot (x - fst c) (y - snd c) <= r p <-> pipeHit p x y = Some k).
Proof.
  intros Hk. pose proof (pipeHit_spec p x y) as Hs. split.
  - intros Hin. destruct (pipeHit p x y) as [m|].
    + destruct Hs as (c' & Hm & Hin' & _). f_equal.
      apply (pipe_discs_apart p m k c' c x y); assumption.
    + exfalso. apply (Hs k c Hk Hin).
  - intros E. rewrite E in Hs. destruct Hs as (c' & Hm & Hin & _).
    rewrite Hk in Hm. injection Hm as <-. exact Hin.
Qed.

(** X6: the pipe discs lie strictly inside the width of the domain and
    are pairwise disjoint, so a point is in the disc of pipe [k] exactly
    when the search over the centres returns [k]: the order of the
    search never decides which pipe owns a node. *)
Theorem pipe_discs_disjoint (p : Params) (k : nat) (c : R * R) (x y : R) :
  pipeCenters p !! k = Some c ->
  0 < fst c - r p /\ fst c + r p < W p
  /\ (JS.hypot (x - fst c) (y - snd c) <= r p <-> pipeHit p x y = Some k).
Proof.
  intros Hk. pose proof (S_range p) as HS. pose proof (D_range p) as HD.
  destruct (pipeCenters_lookup p k c Hk) as [Hlt Hc].
  assert (Hk0 : 0 <= INR k) by apply pos_INR.
  assert (Hkn : INR k + 1 <= INR (nCenters p)).
  { rewrite <- S_INR. apply le_INR. lia. }
  split; [|split].
  - rewrite Hc. unfold r. simpl. nra.
  - rewrite Hc. unfold r, W. simpl. nra.
  - apply pipeHit_iff. exact Hk.
Qed.

Lemma pipe_discs_disjoint_witness :
  0 < (0 + 0.5) * S_ defaultParams - r defaultParams.
Proof.
  apply (pipe_discs_disjoint defaultParams 0
           ((0 + 0.5) * S_ defaultParams, pipeCenterY defaultParams) 0 0).
  reflexivity.
Defined.

(** *** A masked node of the default configuration *)

Lemma default_totalH : totalH defaultParams = 0.164.
Proof. unfold totalH, tCover, tScreed, tUnder, tIns, isBubble. reval. Qed.

Lemma default_NYz : NYz defaultParams = 99%Z.
Proof.
  assert (Hd : dyTarget defaultParams = 0.05 / 30).
  { unfold dyTarget, dyLimits, dyBase, baseNY. rewrite default_totalH.
    unfold tCover, tScreed, tUnder, tIns, isBubble. reval. }
  unfold NYz. rewrite default_totalH, Hd.
  rewrite (round_eq _ 98); [reflexivity|].
  replace (0.164 / (0.05 / 30)) with 98.4; [lra|].
  unfold Rdiv. rewrite Rinv_mult, Rinv_inv. lra.
Qed.

Lemma default_NY : NY defaultParams = 99%nat.
Proof. unfold NY. rewrite default_NYz. reflexivity. Qed.

Lemma default_pipeCenterY : pipeCenterY defaultParams = 0.056.
Proof.
  unfold pipeCenterY, pipeBottomY, dBot, dBotRaw, maxDBot, limitByCover,
    limitByScreed, yInsulTop, minCover, dBotUser, tUnder, isBubble, tCover,
    tScreed, D.
  reval.
Qed.

Lemma default_node_hit :
  pipeHit defaultParams (INR 24 * dx defaultParams) (INR 33 * dy defaultParams)
  = Some 0%nat.
Proof.
  apply (pipeHit_iff defaultParams 0
           ((0 + 0.5) * S_ defaultParams, pipeCenterY defaultParams));
    [reflexivity|].
  simpl fst. simpl snd. rewrite default_pipeCenterY.
  assert (HS : S_ defaultParams = 0.15) by (unfold S_; reval).
  assert (Hr : r defaultParams = 0.008) by (unfold r, D; reval).
  assert (Hdx : dx defaultParams = 0.45 / 143).
  { unfold dx, W, nCenters. rewrite HS.
    replace (INR NX) with 144 by (unfold NX; rewrite INR_IZR_INZ; reflexivity).
    replace (INR (Nat.max 1 (nPipes defaultParams))) with 3 by (simpl; lra).
    lra. }
  assert (Hdy : dy defaultParams = 0.164 / 98).
  { unfold dy. rewrite INR_NY, default_NYz, default_totalH. lra. }
  rewrite HS, Hr, Hdx, Hdy.
  replace (INR 24) with 24 by (rewrite INR_IZR_INZ; reflexivity).
  replace (INR 33) with 33 by (rewrite INR_IZR_INZ; reflexivity).
  apply hypot_le; lra.
Qed.

Lemma default_node_masked : pipeMask defaultParams !!! idx 24 33 = 1%nat.
Proof.
  destruct (pipeArrays_marked defaultParams) as (_ & _ & H).
  destruct (H 24%nat 33%nat) as [Hm _];
    [unfold NX; lia | rewrite default_NY; lia |].
  specialize (Hm I). unfold markOf in Hm. rewrite default_node_hit in Hm.
  injection Hm as Hm _. exact Hm.
Qed.

Lemma solved_pipe_nodes_witness :
  solveField defaultParams !!! idx 24 33 = TpipeOf defaultParams (idx 24 33).
Proof.
  apply (solved_pipe_nodes defaultParams 24 33).
  - simpl. discriminate.
  - unfold NX. lia.
  - rewrite default_NY. lia.
  - rewrite default_node_masked. discriminate.
Defined.

(** ** Temperature of the nodes inside a pipe *)

Lemma TpipeArr_length (p : Params) :
  length (TpipeArr p)
  = if (nCenters p <=? 1)%nat then 1%nat else Nat.min (nCenters p) 3.
Proof.
  unfold TpipeArr, computePipeTemperatures, pipeCenters.
  rewrite length_map, length_seq.
  destruct (nCenters p <=? 1)%nat; [reflexivity|].
  destruct (decide (layout p = "meander")); rewrite length_take; reflexivity.
Qed.

Lemma TpipeArr_nonempty (p : Params) : (1 <= length (TpipeArr p))%nat.
Proof.
  rewrite TpipeArr_length. destruct (nCenters p <=? 1)%nat eqn:E; [lia|].
  apply Nat.leb_gt in E. lia.
Qed.

(** X7: unless the underlay is a mounting mat, and with at most 128
    pipes, every interior node lying in the disc of pipe [k] holds in the
    solved field the profile entry of pipe [k] (the last entry for pipes
    beyond the third, the profile having at most three entries). *)
Theorem disc_node_temperature (p : Params) (i j k : nat) (c : R * R) :
  under_type (under p) <> "mat" -> (nCenters p <= 128)%nat ->
  (1 <= i < NX - 1)%nat -> (1 <= j < NY p - 1)%nat ->
  pipeCenters p !! k = Some c ->
  JS.hypot (INR i * dx p - fst c) (INR j * dy p - snd c) <= r p ->
  solveField p !!! idx i j = TpipeArr p !!! Nat.min k (length (TpipeArr p) - 1)
  /\ (1 <= length (TpipeArr p) <= 3)%nat.
Proof.
  intros Hmat Hn Hi Hj Hk Hin. pose proof (TpipeArr_nonempty p) as Hne.
  assert (Hlen3 : (length (TpipeArr p) <= 3)%nat).
  { rewrite TpipeArr_length. destruct (nCenters p <=? 1)%nat; lia. }
  split; [|lia].
  apply (pipeHit_iff p k c) in Hin; [|exact Hk].
  destruct (pipeArrays_marked p) as (_ & _ & H).
  destruct (H i j Hi Hj) as [Hm _]. specialize (Hm I).
  unfold markOf in Hm. rewrite Hin in Hm. injection Hm as Hmask Hlab.
  fold (pipeMask p) in Hmask. fold (pipeLabel p) in Hlab.
  apply pipeCenters_lookup in Hk as [Hkn _].
  assert (Hlab' : pipeLabel p !!! idx i j = Z.of_nat k).
  { rewrite Hlab. unfold JS.toInt8. rewrite Z.mod_small by lia. lia. }
  transitivity (TpipeOf p (idx i j)).
  - apply (solve_row_property p j (fun S0 => S0 !!! idx i j = TpipeOf p (idx i j)));
      [lia| |].
    + intros S0 S1 E E0. rewrite E by lia. exact E0.
    + intros S0 Hl. rewrite sweepRow_interior by lia.
      rewrite rowLoop_at by (rewrite ?Hl; try apply idx_lt; lia).
      unfold interiorValue.
      destruct (decide (i = 0%nat)); [lia|].
      destruct (decide (i = (NX - 1)%nat)); [lia|].
      destruct (decide (pipeMask p !!! idx i j ≠ 0%nat)); [|lia].
      unfold pipeNodeValue.
      destruct (decide (under_type (under p) = "mat")); [contradiction|reflexivity].
  - unfold TpipeOf. rewrite Hlab'.
    destruct (0 <=? Z.of_nat k)%Z eqn:E; [|apply Z.leb_gt in E; lia].
    f_equal. lia.
Qed.

Lemma disc_node_temperature_witness :
  solveField defaultParams !!! idx 24 33 = TpipeArr defaultParams !!! 0%nat.
Proof.
  assert (Hhit := default_node_hit).
  apply (pipeHit_iff defaultParams 0
           ((0 + 0.5) * S_ defaultParams, pipeCenterY defaultParams)) in Hhit;
    [|reflexivity].
  apply (disc_node_temperature defaultParams 24 33 0
           ((0 + 0.5) * S_ defaultParams, pipeCenterY defaultParams)).
  - simpl. discriminate.
  - unfold nCenters. simpl. lia.
  - unfold NX. lia.
  - rewrite default_NY. lia.
  - reflexivity.
  - exact Hhit.
Defined.

(** ** Lower bound of the vertical node count *)

Lemma fold_Rmin_le (xs : list R) (x : R) : fold_left Rmin xs x <= x.
Proof.
  revert x. induction xs as [|v xs IH]; intros x; simpl; [lra|].
  eapply Rle_trans; [apply IH|]. apply Rmin_l.
Qed.

(** X8: with non-negative layer thicknesses the grid has at least 80 and
    at most 300 rows, so the lower clamp at 3 is never the value taken,
    and the row spacing is positive and at most totalH / 79. *)
Theorem vertical_node_count_range (p : Params) :
  0 <= tCover p -> 0 <= tIns p ->
  (80 <= NYz p <= 300)%Z /\ 0 < dy p <= totalH p / 79.
Proof.
  intros Hc Hi. pose proof (totalH_ge p Hc Hi) as Ht.
  assert (Hm : 0 < JS.minOf (dyLimits p)).
  { apply minOf_pos; [|apply dyLimits_pos; assumption]. unfold dyLimits. discriminate. }
  assert (Hle : JS.minOf (dyLimits p) <= totalH p / 79).
  { unfold dyLimits, dyBase, baseNY. simpl.
    replace (JS.max 2 (80 - 1)) with 79 by (unfold JS.max, Rmax; destruct Rle_dec; lra).
    apply fold_Rmin_le. }
  assert (Hd : 0 < dyTarget p <= totalH p / 79).
  { unfold dyTarget, JS.max, Rmax. destruct (Rle_dec _ _); lra. }
  assert (H79 : (79 <= JS.round (totalH p / dyTarget p))%Z).
  { apply round_ge. apply div_lower; lra. }
  assert (HN : (80 <= NYz p <= 300)%Z) by (unfold NYz; lia).
  split; [exact HN|].
  unfold dy. rewrite INR_NY.
  assert (Hz : 80 <= IZR (NYz p)) by (apply IZR_le; lia).
  split.
  - apply Rdiv_lt_0_compat; lra.
  - unfold Rdiv. apply Rmult_le_compat_l; [lra|].
    apply Rinv_le_contravar; lra.
Qed.

Lemma vertical_node_count_range_witness : (80 <= NYz defaultParams <= 300)%Z.
Proof.
  apply (vertical_node_count_range defaultParams); unfold tCover, tIns; simpl; lra.
Defined.

(** ** Order of the profile entries *)

Lemma alphaDbg_pos (p : Params) : 0 < alphaDbg p.
Proof. rewrite alphaDbg_spec. pose proof (Rmax_l 1e-6 (Spec.alpha p)). lra. Qed.

Lemma clamp_mono (lo hi s s' : R) :
  s <= s' -> Spec.clamp s lo hi <= Spec.clamp s' lo hi.
Proof.
  intros H. unfold Spec.clamp, Rmax, Rmin. repeat destruct (Rle_dec _ _); lra.
Qed.

Lemma decay_antitone (p : Params) (c c' : R) :
  Tair p <= Ts p -> c <= c' ->
  Tair p + (Ts p - Tair p) * exp (- alphaDbg p * c')
  <= Tair p + (Ts p - Tair p) * exp (- alphaDbg p * c).
Proof.
  intros Hs Hc. pose proof (alphaDbg_pos p) as Ha.
  assert (exp (- alphaDbg p * c') <= exp (- alphaDbg p * c)) by (apply exp_le; nra).
  nra.
Qed.

Lemma x_range (p : Params) : 0 <= Spec.x p <= L_eff p / 2.
Proof.
  pose proof (L_eff_ge p) as HL. unfold Spec.x, Spec.cutFraction.
  assert (0 <= Spec.clamp (loopPosFrac p) 0 0.5 <= 0.5).
  { unfold Spec.clamp, Rmax, Rmin. repeat destruct (Rle_dec _ _); lra. }
  nra.
Qed.

(** X9: when the supply is not colder than the air, the three-pipe
    profile of the meander layout never rises from left to right, and in
    the spiral layout the left pipe is at least as warm as the centre
    (return-side) pipe and as the right pipe. *)
Theorem profile_order (p : Params) (a b c : R) :
  nPipes p = 3%nat -> Tair p <= Ts p -> TpipeArr p = [a; b; c] ->
  (layout p = "meander" -> c <= b <= a)
  /\ (layout p = "spiral" -> b <= a /\ c <= a).
Proof.
  intros Hn Hs Hp. pose proof (x_range p) as Hx. pose proof (L_eff_ge p) as HL.
  split; intros Hl.
  - rewrite (TpipeArr_profile p Hn (or_introl Hl)) in Hp.
    unfold Spec.profile in Hp. rewrite Hl in Hp. simpl in Hp.
    injection Hp as <- <- <-. unfold Spec.T_supply, Spec.delta. rewrite Hl. simpl.
    split; apply decay_antitone; try exact Hs; apply clamp_mono; lra.
  - rewrite (TpipeArr_profile p Hn (or_intror Hl)) in Hp.
    unfold Spec.profile in Hp. rewrite Hl in Hp. simpl in Hp.
    injection Hp as <- <- <-.
    unfold Spec.T_supply, Spec.T_return, Spec.delta. rewrite Hl. simpl.
    split; apply decay_antitone; try exact Hs; apply clamp_mono; lra.
Qed.

Lemma profile_order_witness :
  exists a b c, TpipeArr shortLoopParams = [a; b; c] /\ c <= b <= a.
Proof.
  pose proof (TpipeArr_profile shortLoopParams eq_refl (or_introl eq_refl)) as E.
  unfold Spec.profile in E. simpl in E.
  eexists _, _, _. split; [exact E|].
  apply (profile_order shortLoopParams _ _ _ eq_refl); [simpl; lra|exact E|reflexivity].
Defined.

(** ** Surface statistics *)

Lemma surfaceT_length (T : list R) : length (surfaceT T) = NX.
Proof.
  unfold surfaceT.
  apply (for_invariant (fun (_ : nat) (a : list R) => length a = NX));
    [lia|apply length_replicate|].
  intros i s _ Hs. rewrite length_insert. exact Hs.
Qed.

Lemma fold_Rmin_le_elem (xs : list R) (x v : R) :
  In v (x :: xs) -> fold_left Rmin xs x <= v.
Proof.
  revert x. induction xs as [|y xs IH]; intros x Hin; simpl.
  - destruct Hin as [->|[]]. lra.
  - destruct Hin as [->|[->|Hin]].
    + eapply Rle_trans; [apply fold_Rmin_le|]. apply Rmin_l.
    + eapply Rle_trans; [apply fold_Rmin_le|]. apply Rmin_r.
    + apply IH. right. exact Hin.
Qed.

Lemma fold_Rmax_ge (xs : list R) (x : R) : x <= fold_left Rmax xs x.
Proof.
  revert x. induction xs as [|v xs IH]; intros x; simpl; [lra|].
  eapply Rle_trans; [|apply IH]. apply Rmax_l.
Qed.

Lemma fold_Rmax_ge_elem (xs : list R) (x v : R) :
  In v (x :: xs) -> v <= fold_left Rmax xs x.
Proof.
  revert x. induction xs as [|y xs IH]; intros x Hin; simpl.
  - destruct Hin as [->|[]]. lra.
  - destruct Hin as [->|[->|Hin]].
    + eapply Rle_trans; [|apply fold_Rmax_ge]. apply Rmax_l.
    + eapply Rle_trans; [|apply fold_Rmax_ge]. apply Rmax_r.
    + apply IH. right. exact Hin.
Qed.

Lemma lookup_total_In (l : list R) (i : nat) : (i < length l)%nat -> In (l !!! i) l.
Proof.
  intros Hi. apply list_elem_of_In.
  apply list_elem_of_lookup_total_2. exact Hi.
Qed.

Lemma surface_between (T : list R) (i : nat) :
  (i < NX)%nat -> TminSurf T <= surfaceT T !!! i <= TmaxSurf T.
Proof.
  intros Hi. unfold TminSurf, TmaxSurf, JS.minOf, maxOf.
  pose proof (surfaceT_length T) as Hl.
  pose proof (lookup_total_In (surfaceT T) i) as Hin.
  destruct (surfaceT T) as [|x xs]; [simpl in Hl; unfold NX in Hl; lia|].
  rewrite Hl in Hin. specialize (Hin Hi).
  split; [apply fold_Rmin_le_elem | apply fold_Rmax_ge_elem]; exact Hin.
Qed.

Lemma sumTo_bounds (n : nat) (f : nat -> R) (lo hi : R) :
  (forall i, (i < n)%nat -> lo <= f i <= hi) ->
  INR n * lo <= Spec.sumTo n f <= INR n * hi.
Proof.
  induction n as [|n IH]; intros H; [simpl; lra|].
  rewrite S_INR. simpl.
  assert (lo <= f n <= hi) by (apply H; lia).
  assert (INR n * lo <= Spec.sumTo n f <= INR n * hi) by (apply IH; intros; apply H; lia).
  lra.
Qed.

Lemma INR_NX : INR NX = 144.
Proof. unfold NX. rewrite INR_IZR_INZ. reflexivity. Qed.

(** X10: the two comfort shares are percentages, and the share above
    31 degrees never exceeds the share above 29 degrees. *)
Theorem comfort_shares (T : list R) :
  (over31 T <= over29 T <= NX)%nat
  /\ 0 <= over31Pct T <= over29Pct T /\ over29Pct T <= 100.
Proof.
  assert (H : (over31 T <= over29 T <= NX)%nat).
  { unfold over31, over29, overLoop.
    apply (for_invariant
             (fun (i : nat) (st : nat * nat) => (snd st <= fst st <= i)%nat));
      [lia|cbn [fst snd]; lia|].
    intros i st Hi Hst. cbn beta zeta.
    destruct (decide (29 < surfaceT T !!! i)), (decide (31 < surfaceT T !!! i));
      cbn [fst snd]; try lia. lra. }
  split; [exact H|].
  unfold over31Pct, over29Pct. rewrite INR_NX.
  assert (H1 : INR (over31 T) <= INR (over29 T)) by (apply le_INR; lia).
  assert (H2 : INR (over29 T) <= INR NX) by (apply le_INR; lia).
  rewrite INR_NX in H2. pose proof (pos_INR (over31 T)). lra.
Qed.

(** X11: the local surface-temperature differences over about 5 cm and
    10 cm are non-negative and never exceed the spread between the
    warmest and the coldest surface node. *)
Theorem foot_difference_bounds (p : Params) (T : list R) :
  0 <= dFoot5 p T <= dTsurf T /\ 0 <= dFoot10 p T <= dTsurf T.
Proof.
  assert (Hd : forall i j, (i < NX)%nat -> (j < NX)%nat ->
            Rabs (surfaceT T !!! j - surfaceT T !!! i) <= dTsurf T).
  { intros i j Hi Hj. pose proof (surface_between T i Hi).
    pose proof (surface_between T j Hj). unfold dTsurf.
    unfold Rabs. destruct (Rcase_abs _); lra. }
  assert (Hspread : 0 <= dTsurf T).
  { pose proof (surface_between T 0). unfold dTsurf.
    assert (0 < NX)%nat by (unfold NX; lia). specialize (H H0). lra. }
  assert (H : (0 <= dFoot5 p T <= dTsurf T) /\ (0 <= dFoot10 p T <= dTsurf T)).
  { unfold dFoot5, dFoot10, dFootLoop.
    apply (for_invariant
             (fun (_ : nat) (st : R * R) =>
                (0 <= fst st <= dTsurf T) /\ (0 <= snd st <= dTsurf T)));
      [lia|cbn [fst snd]; lra|].
    intros i st Hi [H5 H10]. cbn [fst snd].
    assert (A5 := Hd i (Nat.min (NX - 1) (i + steps5 p))).
    assert (A10 := Hd i (Nat.min (NX - 1) (i + steps10 p))).
    unfold JS.max, Rmax.
    split; destruct (Rle_dec _ _); split; try lra;
      (apply A5 || apply A10 || apply Rabs_pos); unfold NX in *; lia. }
  exact H.
Qed.

(** X12: the mean surface temperature lies between the coldest and the
    warmest surface node. *)
Theorem surface_mean_between (T : list R) :
  TminSurf T <= Tavg T <= TmaxSurf T.
Proof.
  unfold Tavg, sumT.
  replace (for_ 0 NX (fun i acc => acc + surfaceT T !!! i) 0)
    with (0 + Spec.sumTo NX (fun i => surfaceT T !!! i))
    by (symmetry; apply (for_sum NX (fun i => surfaceT T !!! i) 0)).
  pose proof (sumTo_bounds NX (fun i => surfaceT T !!! i) (TminSurf T) (TmaxSurf T)
                (fun i Hi => surface_between T i Hi)) as H.
  rewrite INR_NX in *. unfold Rdiv. lra.
Qed.

(** ** One-dimensional estimate *)

Lemma div_pos_max (a k : R) : 0 < a -> 0 < a / JS.max k 1e-3.
Proof.
  intros Ha. apply Rdiv_lt_0_compat; [exact Ha|].
  pose proof (Rmax_r k 1e-3). unfold JS.max. lra.
Qed.

(** X13: the film resistance is positive and at most the summed
    resistance, so the one-dimensional surface temperature lies between
    the air temperature and the effective pipe temperature. *)
Theorem estimate_1D_between (p : Params) :
  0 < Rconv p <= Rsum p
  /\ Rmin (Tair p) (TpipeEff p) <= Tsurf1D p <= Rmax (Tair p) (TpipeEff p)
  /\ (1e-6 <= Rsum p -> q1D p * Rsum p = TpipeEff p - Tair p).
Proof.
  assert (Hconv : 0 < Rconv p).
  { unfold Rconv. apply div_pos_max. lra. }
  assert (Hcov : 0 <= Rcover p).
  { unfold Rcover. destruct (decide (0 < tCover p)); [|lra].
    left. apply div_pos_max. assumption. }
  assert (Hscr : 0 < Rscreed p).
  { unfold Rscreed. apply div_pos_max. pose proof (tScreed_ge p). lra. }
  assert (Hund : 0 <= Runder p).
  { unfold Runder. destruct (decide (0 < tUnder p)); [|lra].
    left. apply div_pos_max. assumption. }
  assert (Hsum : Rconv p <= Rsum p) by (unfold Rsum; lra).
  split; [split; assumption|].
  set (m := JS.max (Rsum p) 1e-6).
  assert (Hm : 0 < m /\ Rsum p <= m) by (unfold m, JS.max, Rmax; destruct (Rle_dec _ _); lra).
  assert (Hrho : 0 < Rconv p / m <= 1).
  { split; [apply Rdiv_lt_0_compat; lra|].
    apply Rmult_le_reg_r with m; [lra|].
    unfold Rdiv. rewrite Rmult_assoc, Rinv_l by lra. lra. }
  assert (E : Tsurf1D p = Tair p + (TpipeEff p - Tair p) * (Rconv p / m)).
  { unfold Tsurf1D, q1D. fold m. unfold Rdiv. ring. }
  split.
  - rewrite E. set (rho := Rconv p / m) in *.
    unfold Rmin, Rmax. destruct (Rle_dec (Tair p) (TpipeEff p)); split; nra.
  - intros H6. unfold q1D, JS.max. rewrite Rmax_left by exact H6.
    unfold Rdiv. rewrite Rmult_assoc, Rinv_l by lra. ring.
Qed.

(** ** Automatic return temperature *)

Lemma toFixed_error (d : nat) (v : R) :
  Rabs (JS.toFixed d v - v) <= / 2 / 10 ^ d /\ (0 <= v -> 0 <= JS.toFixed d v).
Proof.
  assert (Hp : 0 < 10 ^ d) by (apply pow_lt; lra).
  assert (Hi : 0 < / 10 ^ d) by (apply Rinv_0_lt_compat, Hp).
  assert (Hk : forall y : R,
            Rabs (IZR (Zfloor (y * 10 ^ d + 1 / 2)) / 10 ^ d - y) <= / 2 / 10 ^ d).
  { intros y. pose proof (Zfloor_bound (y * 10 ^ d + 1 / 2)) as [H1 H2].
    set (z := IZR (Zfloor (y * 10 ^ d + 1 / 2))) in *.
    assert (E : z / 10 ^ d - y = (z - y * 10 ^ d) * / 10 ^ d) by (field; lra).
    rewrite E. unfold Rdiv.
    assert (- (/ 2) <= z - y * 10 ^ d <= / 2) by lra.
    unfold Rabs. destruct (Rcase_abs _); nra. }
  split.
  - unfold JS.toFixed. destruct (Rlt_dec v 0).
    + specialize (Hk (- v)).
      replace (- (IZR (Zfloor (- v * 10 ^ d + 1 / 2)) / 10 ^ d) - v)
        with (- (IZR (Zfloor (- v * 10 ^ d + 1 / 2)) / 10 ^ d - - v)) by ring.
      rewrite Rabs_Ropp. exact Hk.
    + apply Hk.
  - intros Hv. unfold JS.toFixed. destruct (Rlt_dec v 0); [lra|].
    assert ((0 <= Zfloor (v * 10 ^ d + 1 / 2))%Z).
    { apply Zfloor_lub. simpl. nra. }
    apply IZR_le in H. unfold Rdiv. nra.
Qed.

(** X14: with automatic return switched off the return temperature is
    left alone; switched on, the stored value ends within 0.05 K of the
    computed return temperature clamped to [0, Ts], is never negative
    when Ts is not, and a second run of the effect on the same inputs
    changes nothing more. *)
Theorem auto_return_effect (on : bool) (Ts0 Tr0 Tra : R) :
  0 <= Ts0 ->
  let calc := Rmax 0 (Rmin Ts0 Tra) in
  let Tr1 := autoReturnEffect on Ts0 Tr0 Tra in
  (on = false -> Tr1 = Tr0)
  /\ (on = true ->
      0 <= calc <= Ts0
      /\ Rabs (calc - Tr1) <= 0.05
      /\ (0 <= Tr0 -> 0 <= Tr1)
      /\ autoReturnEffect on Ts0 Tr1 Tra = Tr1).
Proof.
  intros HTs calc Tr1. split; intros Hon; subst on.
  - reflexivity.
  - assert (Hc : 0 <= calc <= Ts0).
    { unfold calc, Rmax, Rmin. repeat destruct (Rle_dec _ _); lra. }
    destruct (toFixed_error 2 calc) as [He Hn].
    assert (He' : Rabs (JS.toFixed 2 calc - calc) <= 0.005).
    { eapply Rle_trans; [exact He|]. simpl. lra. }
    assert (Hnear : Rabs (calc - Tr1) <= 0.05).
    { unfold Tr1, autoReturnEffect. simpl. fold calc.
      unfold JS.max, JS.min. fold calc.
      destruct (decide (0.05 < Rabs (calc - Tr0))).
      - rewrite Rabs_minus_sym. lra.
      - lra. }
    split; [exact Hc|]. split; [exact Hnear|]. split.
    + intros H0. unfold Tr1, autoReturnEffect. simpl. unfold JS.max, JS.min. fold calc.
      destruct (decide _); [apply Hn; lra|exact H0].
    + unfold autoReturnEffect at 1. simpl. unfold JS.max, JS.min. fold calc.
      destruct (decide (0.05 < Rabs (calc - Tr1))); [lra|reflexivity].
Qed.

Lemma auto_return_effect_witness :
  Rabs (Rmax 0 (Rmin 45 38.123) - autoReturnEffect true 45 40 38.123) <= 0.05.
Proof.
  assert (H : 0 <= 45) by lra.
  destruct (auto_return_effect true 45 40 38.123 H) as [_ Hon].
  apply Hon. reflexivity.
Defined.

Lemma estimate_1D_between_witness :
  q1D defaultParams * Rsum defaultParams = TpipeEff defaultParams - Tair defaultParams.
Proof.
  apply (estimate_1D_between defaultParams).
  destruct (estimate_1D_between defaultParams) as [[H1 H2] _]. 
  assert (0 < Rscreed defaultParams).
  { unfold Rscreed. apply div_pos_max. pose proof (tScreed_ge defaultParams). lra. }
  assert (Rscreed defaultParams = 0.05 / 0.46).
  { unfold Rscreed, tScreed. reval. }
  assert (0 <= Rcover defaultParams).
  { unfold Rcover. destruct (decide _); [left; apply div_pos_max; assumption|lra]. }
  assert (0 <= Runder defaultParams).
  { unfold Runder. destruct (decide _); [left; apply div_pos_max; assumption|lra]. }
  unfold Rsum. lra.
Defined.

(** ** Colour map *)

Lemma round_between (v : R) (lo hi : Z) :
  IZR lo <= v <= IZR hi -> (lo <= JS.round v <= hi)%Z.
Proof.
  intros [H1 H2]. unfold JS.round. split.
  - apply Zfloor_lub. lra.
  - pose proof (Zfloor_bound (v + 1 / 2)) as [H3 _].
    assert (IZR (Zfloor (v + 1 / 2)) < IZR (hi + 1)) by (rewrite plus_IZR; lra).
    apply lt_IZR in H. lia.
Qed.

Lemma blend_between (f : R) (a b lo hi : Z) :
  0 <= f <= 1 -> (lo <= a <= hi)%Z -> (lo <= b <= hi)%Z ->
  (lo <= blend f a b <= hi)%Z.
Proof.
  intros Hf Ha Hb. unfold blend. apply round_between.
  assert (IZR lo <= IZR a <= IZR hi) by (split; apply IZR_le; lia).
  assert (IZR lo <= IZR b <= IZR hi) by (split; apply IZR_le; lia).
  nra.
Qed.

Lemma segment_fraction (t a b : R) :
  a < b -> a <= t <= b -> 0 <= (t - a) / (b - a + 1e-9) <= 1.
Proof.
  intros Hab Ht. assert (Hd : 0 < b - a + 1e-9) by lra.
  assert (Hi : 0 < / (b - a + 1e-9)) by (apply Rinv_0_lt_compat, Hd).
  split.
  - unfold Rdiv. nra.
  - apply Rmult_le_reg_r with (b - a + 1e-9); [exact Hd|].
    unfold Rdiv. rewrite Rmult_assoc, Rinv_l by lra. lra.
Qed.

Lemma blend3_valid (f : R) (a0 a1 a2 b0 b1 b2 : Z) :
  0 <= f <= 1 ->
  (0 <= a0 <= 255)%Z -> (0 <= a1 <= 255)%Z -> (0 <= a2 <= 255)%Z ->
  (0 <= b0 <= 255)%Z -> (0 <= b1 <= 255)%Z -> (0 <= b2 <= 255)%Z ->
  validRGB [blend f a0 b0; blend f a1 b1; blend f a2 b2].
Proof.
  intros Hf A0 A1 A2 B0 B1 B2. eexists _, _, _. split; [reflexivity|].
  split; [|split]; apply blend_between; assumption.
Qed.

Lemma colorMap_unit (t : R) : 0 <= t <= 1 -> validRGB (colorMap t).
Proof.
  intros Ht. unfold colorMap, stops, colorScan. cbn [stop_p stop_c].
  repeat match goal with
    | |- context [bool_decide ?P] => destruct (bool_decide_reflect P)
    end; cbn [andb]; try lra;
    (apply blend3_valid;
     [apply segment_fraction; lra | vm_compute; split; discriminate ..]).
Qed.

(** X15: the colour map returns three channels between 0 and 255 for
    every input; outside [0, 1] it returns the colour of the last stop;
    the image pipeline, which feeds it the contrast-stretched normalised
    temperature, always stays inside [0, 1]. *)
Theorem colorMap_valid (p : Params) (t v : R) :
  validRGB (colorMap t)
  /\ (t < 0 \/ 1 < t -> colorMap t = [220; 0; 0]%Z)
  /\ 0 <= applyContrast p (clamp01 p v) <= 1.
Proof.
  assert (Hout : t < 0 \/ 1 < t -> colorMap t = [220; 0; 0]%Z).
  { intros Ht. unfold colorMap, stops, colorScan. cbn [stop_p stop_c].
    repeat match goal with
      | |- context [bool_decide ?P] => destruct (bool_decide_reflect P)
      end; cbn [andb]; try reflexivity; lra. }
  split; [|split; [exact Hout|]].
  - destruct (Rle_dec 0 t) as [H0|H0]; [destruct (Rle_dec t 1) as [H1|H1]|].
    + apply colorMap_unit. lra.
    + rewrite Hout by lra. exists 220%Z, 0%Z, 0%Z. repeat split; lia.
    + rewrite Hout by lra. exists 220%Z, 0%Z, 0%Z. repeat split; lia.
  - unfold applyContrast, JS.min, JS.max, Rmin, Rmax.
    repeat destruct (Rle_dec _ _); lra.
Qed.

(** ** Pointer sampling *)

Lemma bilinear_between (fx fy a b c d lo hi : R) :
  0 <= fx <= 1 -> 0 <= fy <= 1 ->
  lo <= a <= hi -> lo <= b <= hi -> lo <= c <= hi -> lo <= d <= hi ->
  lo <= (1 - fx) * (1 - fy) * a + fx * (1 - fy) * b
        + (1 - fx) * fy * c + fx * fy * d <= hi.
Proof.
  intros Hx Hy Ha Hb Hc Hd.
  assert (W1 : 0 <= (1 - fx) * (1 - fy)) by nra.
  assert (W2 : 0 <= fx * (1 - fy)) by nra.
  assert (W3 : 0 <= (1 - fx) * fy) by nra.
  assert (W4 : 0 <= fx * fy) by nra.
  assert (Hs : (1 - fx) * (1 - fy) + fx * (1 - fy) + (1 - fx) * fy + fx * fy = 1) by ring.
  split; nra.
Qed.

(** The cell index chosen for a grid coordinate [xf] in [0, n-1] and the
    fraction left over. *)
Lemma cell_index (n : nat) (xf : R) :
  (2 <= n)%nat -> 0 <= xf <= INR n - 1 ->
  let i0 := Z.to_nat (Z.max 0 (Z.min (Z.of_nat n - 2) (Zfloor xf))) in
  (i0 + 1 < n)%nat /\ 0 <= xf - INR i0 <= 1.
Proof.
  intros Hn Hx i0. pose proof (Zfloor_bound xf) as [F1 F2].
  assert (F0 : (0 <= Zfloor xf)%Z) by (apply Zfloor_lub; simpl; lra).
  assert (Hnz : INR n = IZR (Z.of_nat n)) by apply INR_IZR_INZ.
  destruct (Z_le_gt_dec (Zfloor xf) (Z.of_nat n - 2)) as [Hle|Hgt].
  - assert (E : i0 = Z.to_nat (Zfloor xf)) by (unfold i0; f_equal; lia).
    split; [lia|].
    rewrite E, INR_IZR_INZ, Z2Nat.id by lia. lra.
  - assert (E : i0 = (n - 2)%nat) by (unfold i0; lia).
    split; [lia|]. rewrite E.
    assert (Hf : IZR (Z.of_nat n - 1) <= IZR (Zfloor xf)) by (apply IZR_le; lia).
    rewrite minus_IZR in Hf. rewrite minus_INR by lia. simpl. lra.
Qed.

(** X16: sampling returns nothing exactly when the pointer is outside
    the canvas rectangle; inside, it blends the four corner nodes of one
    cell of the grid with fractions in [0, 1], so that the sampled
    temperature lies between any bounds that hold for the field. *)
Theorem sample_within_field
    (T : list R) (nx ny : nat) (rect : Rect) (cx cy lo hi : R) :
  (2 <= nx)%nat -> (2 <= ny)%nat -> 0 < rect_width rect -> 0 < rect_height rect ->
  (forall c, (c < nx * ny)%nat -> lo <= T !!! c <= hi) ->
  let inside := 0 <= cx - rect_left rect <= rect_width rect
                /\ 0 <= cy - rect_top rect <= rect_height rect in
  match sampleTemperatureAtCanvas T nx ny rect cx cy with
  | None => ~ inside
  | Some s =>
      inside
      /\ sample_x s = cx - rect_left rect /\ sample_y s = cy - rect_top rect
      /\ (exists i0 j0 fx fy,
            (i0 + 1 < nx)%nat /\ (j0 + 1 < ny)%nat
            /\ 0 <= fx <= 1 /\ 0 <= fy <= 1
            /\ sample_T s
               = (1 - fx) * (1 - fy) * T !!! (j0 * nx + i0)%nat
                 + fx * (1 - fy) * T !!! (j0 * nx + (i0 + 1))%nat
                 + (1 - fx) * fy * T !!! ((j0 + 1) * nx + i0)%nat
                 + fx * fy * T !!! ((j0 + 1) * nx + (i0 + 1))%nat)
      /\ lo <= sample_T s <= hi
  end.
Proof.
  intros Hnx Hny Hw Hh HT inside. unfold sampleTemperatureAtCanvas, inside.
  set (xPx := cx - rect_left rect). set (yPx := cy - rect_top rect).
  destruct (bool_decide_reflect (xPx < 0)) as [H1|H1]; [simpl; lra|].
  destruct (bool_decide_reflect (yPx < 0)) as [H2|H2]; [simpl; lra|].
  destruct (bool_decide_reflect (rect_width rect < xPx)) as [H3|H3]; [simpl; lra|].
  destruct (bool_decide_reflect (rect_height rect < yPx)) as [H4|H4]; [simpl; lra|].
  cbn [orb]. split; [lra|]. split; [reflexivity|]. split; [reflexivity|].
  cbn [sample_T].
  assert (Hnx1 : 1 <= INR nx - 1).
  { assert (INR 2 <= INR nx) by (apply le_INR; lia). simpl in H. lra. }
  assert (Hny1 : 1 <= INR ny - 1).
  { assert (INR 2 <= INR ny) by (apply le_INR; lia). simpl in H. lra. }
  assert (Hxf : 0 <= xPx / rect_width rect * (INR nx - 1) <= INR nx - 1).
  { assert (0 <= xPx / rect_width rect <= 1).
    { split; [apply Rmult_le_pos; [lra|left; apply Rinv_0_lt_compat; lra]|].
      apply Rmult_le_reg_r with (rect_width rect); [lra|].
      unfold Rdiv. rewrite Rmult_assoc, Rinv_l by lra. lra. }
    nra. }
  assert (Hyf : 0 <= yPx / rect_height rect * (INR ny - 1) <= INR ny - 1).
  { assert (0 <= yPx / rect_height rect <= 1).
    { split; [apply Rmult_le_pos; [lra|left; apply Rinv_0_lt_compat; lra]|].
      apply Rmult_le_reg_r with (rect_height rect); [lra|].
      unfold Rdiv. rewrite Rmult_assoc, Rinv_l by lra. lra. }
    nra. }
  destruct (cell_index nx _ Hnx Hxf) as [Hi Hfx].
  destruct (cell_index ny _ Hny Hyf) as [Hj Hfy].
  set (i0 := Z.to_nat (Z.max 0 (Z.min (Z.of_nat nx - 2)
                                   (Zfloor (xPx / rect_width rect * (INR nx - 1)))))) in *.
  set (j0 := Z.to_nat (Z.max 0 (Z.min (Z.of_nat ny - 2)
                                   (Zfloor (yPx / rect_height rect * (INR ny - 1)))))) in *.
  split.
  - exists i0, j0, (xPx / rect_width rect * (INR nx - 1) - INR i0),
      (yPx / rect_height rect * (INR ny - 1) - INR j0).
    repeat split; try assumption; try apply Hfx; try apply Hfy.
  - apply bilinear_between; try assumption; apply HT; nia.
Qed.

Lemma sample_within_field_witness :
  sampleTemperatureAtCanvas [1; 2; 3; 4] 2 2
    {| rect_left := 0; rect_top := 0; rect_width := 10; rect_height := 10 |} 20 5
  = None.
Proof.
  pose proof (sample_within_field [1; 2; 3; 4] 2 2
                {| rect_left := 0; rect_top := 0; rect_width := 10; rect_height := 10 |}
                20 5 0 5) as H.
  cbn [rect_left rect_top rect_width rect_height] in H.
  destruct (sampleTemperatureAtCanvas _ _ _ _ _ _) as [s|]; [|reflexivity].
  exfalso.
  assert (Hb : forall c, (c < 2 * 2)%nat -> 0 <= [1; 2; 3; 4] !!! c <= 5).
  { intros c Hc. destruct c as [|[|[|[|c]]]]; simpl; try lra. lia. }
  destruct (H ltac:(lia) ltac:(lia) ltac:(lra) ltac:(lra) Hb) as [[Hin _] _]. lra.
Defined.

(** ** Isotherm crossings *)

(** X17: an isotherm crossing is added on an edge exactly when the level
    lies between the two end temperatures and these differ by more than
    1e-9; the point added lies on the edge, at the fraction
    (Tiso - ta) / (tb - ta), which is in [0, 1] and is where the linear
    interpolation of the end temperatures equals the level. *)
Theorem addEdge_on_edge (Tiso ta tb xa ya xb yb : R) :
  match addEdge Tiso ta tb xa ya xb yb with
  | Some (x, y) =>
      1e-9 < Rabs (tb - ta)
      /\ Rmin ta tb <= Tiso <= Rmax ta tb
      /\ (let f := (Tiso - ta) / (tb - ta) in
          0 <= f <= 1
          /\ x = xa + f * (xb - xa) /\ y = ya + f * (yb - ya)
          /\ ta + f * (tb - ta) = Tiso)
  | None => ~ (Rmin ta tb <= Tiso <= Rmax ta tb) \/ Rabs (tb - ta) <= 1e-9
  end.
Proof.
  unfold addEdge.
  destruct (bool_decide_reflect ((Tiso - ta) * (Tiso - tb) <= 0)) as [H1|H1];
    [destruct (bool_decide_reflect (1e-9 < Rabs (tb - ta))) as [H2|H2]|];
    cbn [andb].
  - assert (Hne : tb - ta <> 0).
    { intros E. rewrite E, Rabs_R0 in H2. lra. }
    assert (Hb : Rmin ta tb <= Tiso <= Rmax ta tb).
    { unfold Rmin, Rmax. destruct (Rle_dec ta tb); split; nra. }
    split; [exact H2|]. split; [exact Hb|]. cbv zeta.
    assert (Hf : (Tiso - ta) / (tb - ta) * (tb - ta) = Tiso - ta) by (field; exact Hne).
    split.
    + set (f := (Tiso - ta) / (tb - ta)) in *.
      unfold Rmin, Rmax in Hb. destruct (Rle_dec ta tb); split; nra.
    + repeat split; try reflexivity. lra.
  - right. lra.
  - left. unfold Rmin, Rmax. destruct (Rle_dec ta tb); nra.
Qed.

(** ** Further flux facts *)

Lemma sumTo_linear (n : nat) (f : nat -> R) (a b : R) :
  Spec.sumTo n (fun i => a * (f i - b)) = a * (Spec.sumTo n f - INR n * b).
Proof.
  induction n as [|n IH]; [simpl; ring|].
  rewrite S_INR. simpl. rewrite IH. ring.
Qed.

Lemma qUpMean_sum (p : Params) (T : list R) :
  qUpMean p T = Spec.sumTo NX (fun i => hEff p * (surfaceT T !!! i - Tair p)) / INR NX.
Proof.
  unfold qUpMean, qUpSum, qUpLoop, Rdiv. apply Rmult_eq_compat_r.
  transitivity (0 + Spec.sumTo NX (fun i => hEff p * (surfaceT T !!! i - Tair p)));
    [exact (for_sum_snd NX (fun i => hEff p * (surfaceT T !!! i - Tair p))
              (replicate NX 0, 0)) | lra].
Qed.

Lemma Tavg_sum (T : list R) :
  Tavg T = Spec.sumTo NX (fun i => surfaceT T !!! i) / INR NX.
Proof.
  unfold Tavg, sumT, Rdiv. apply Rmult_eq_compat_r.
  transitivity (0 + Spec.sumTo NX (fun i => surfaceT T !!! i));
    [exact (for_sum NX (fun i => surfaceT T !!! i) 0) | lra].
Qed.

(** X18: the mean upward flux is the effective film coefficient times the
    excess of the mean surface temperature over the air temperature, and
    every entry of the flux array is that relation at its column. *)
Theorem mean_flux_from_mean_temperature (p : Params) (T : list R) :
  qUpMean p T = hEff p * (Tavg T - Tair p)
  /\ forall i, (i < NX)%nat -> qUpArr p T !!! i = hEff p * (T !!! idx i 0 - Tair p).
Proof.
  split.
  - rewrite qUpMean_sum, Tavg_sum, sumTo_linear, INR_NX. field.
  - intros i Hi. unfold qUpArr, qUpLoop.
    pose (g := fun i : nat => hEff p * (surfaceT T !!! i - Tair p)).
    assert (H : forall n, (n <= NX)%nat ->
              let st := for_ 0 n (fun i st => (<[i := g i]> (fst st), snd st + g i))
                          (replicate NX 0, 0) in
              length (fst st) = NX
              /\ forall k, (k < n)%nat -> fst st !!! k = g k).
    { intros n Hn. cbv zeta.
      apply (for_invariant
               (fun (m : nat) (st : list R * R) =>
                  length (fst st) = NX
                  /\ forall k, (k < m)%nat -> fst st !!! k = g k)); [lia| |].
      - cbn [fst]. split; [apply length_replicate|]. intros; lia.
      - intros m st Hm [Hl Hk]. cbn [fst]. split; [rewrite length_insert; exact Hl|].
        intros k Hk'. destruct (decide (k = m)) as [->|Hne].
        + apply list_lookup_total_insert_eq. lia.
        + rewrite list_lookup_total_insert_ne by congruence. apply Hk. lia. }
    destruct (H NX (le_n _)) as [_ Hv]. 
    transitivity (g i); [exact (Hv i Hi)|].
    unfold g. rewrite surfaceT_at by exact Hi. reflexivity.
Qed.

Lemma mean_flux_from_mean_temperature_witness :
  qUpArr defaultParams (T_init defaultParams) !!! 3%nat
  = hEff defaultParams * (T_init defaultParams !!! idx 3 0 - Tair defaultParams).
Proof.
  apply (mean_flux_from_mean_temperature defaultParams (T_init defaultParams)).
  unfold NX. lia.
Defined.

Lemma mdot_pos (p : Params) : 0 < mdot p.
Proof. unfold mdot, JS.max. pose proof (Rmax_l 1e-6 (flowLpm p / 1000 / 60 * rho)). lra. Qed.

Lemma areaPlan_pos (p : Params) : 0 < areaPlan p.
Proof.
  unfold areaPlan, JS.max. destruct (useFixedArea p).
  - pose proof (Rmax_l 1e-6 (areaM2 p)). lra.
  - pose proof (Rmax_l 1e-6 (S_ p * L_eff p)). lra.
Qed.

(** X19: when the mean upward flux is not negative, the total flux is at
    least the upward flux, the upward share lies in [0, 1), and the
    automatic return temperature does not exceed the supply temperature,
    so that the clamp of the write-back effect to Ts is not the value
    taken. *)
Theorem nonnegative_flux_facts (p : Params) (T : list R) :
  0 <= qUpMean p T ->
  qUpMean p T <= qTotalPerArea p T
  /\ 0 <= upShare p T < 1
  /\ Tr_auto p T <= Ts p
  /\ Rmin (Ts p) (Tr_auto p T) = Tr_auto p T.
Proof.
  intros Hq.
  assert (Hd : 0 <= qDownAbs p T) by (unfold qDownAbs, JS.max; apply Rmax_l).
  assert (Ht : qUpMean p T <= qTotalPerArea p T) by (unfold qTotalPerArea; lra).
  assert (Hden : 0 < qTotalPerArea p T + 1e-9) by lra.
  assert (Hi : 0 < / (qTotalPerArea p T + 1e-9)) by (apply Rinv_0_lt_compat, Hden).
  assert (Hr : Tr_auto p T <= Ts p).
  { unfold Tr_auto, Qloop. pose proof (mdot_pos p). pose proof (areaPlan_pos p).
    assert (0 < JS.max 1e-6 (mdot p * cp)).
    { unfold JS.max. pose proof (Rmax_l 1e-6 (mdot p * cp)). lra. }
    assert (0 <= qUpMean p T * areaPlan p / JS.max 1e-6 (mdot p * cp)).
    { unfold Rdiv. apply Rmult_le_pos; [nra|]. left. apply Rinv_0_lt_compat. assumption. }
    lra. }
  split; [exact Ht|]. split; [|split; [exact Hr|apply Rmin_right, Hr]].
  unfold upShare, Rdiv. split; [nra|].
  apply Rmult_lt_reg_r with (qTotalPerArea p T + 1e-9); [exact Hden|].
  rewrite Rmult_assoc, Rinv_l by lra. lra.
Qed.

(** ** Top-row values *)

Lemma pow_nonneg (a b : R) : 0 <= JS.pow a b.
Proof.
  unfold JS.pow. destruct (Rle_dec a 0); [lra|].
  unfold Rpower. left. apply exp_pos.
Qed.

Lemma kRow_top (p : Params) :
  0 <= tCover p ->
  kRow p !!! 0%nat = if decide (tCover p = 0) then screed_k (screed p)
                     else layer_k (cover p).
Proof.
  intros Hc. pose proof (NY_range p). rewrite kRow_at by lia.
  simpl. rewrite Rmult_0_l. unfold kAt.
  destruct (Rle_dec 0 (tCover p)); [|lra].
  unfold tCover. destruct (Req_dec_T _ _), (decide _); try reflexivity; contradiction.
Qed.

Lemma T_init_top (p : Params) (i : nat) :
  (i < NX)%nat -> T_init p !!! idx i 0 = Tair p.
Proof.
  intros Hi. pose proof (NY_range p). rewrite T_init_at by (assumption || lia).
  unfold seedRow. simpl. unfold Rdiv. rewrite Rmult_0_l. lra.
Qed.

Lemma sumTo_zero (n : nat) : Spec.sumTo n (fun _ => 0) = 0.
Proof. induction n as [|n IH]; simpl; [reflexivity|rewrite IH; lra]. Qed.

Lemma nonnegative_flux_facts_witness :
  0 <= upShare defaultParams (T_init defaultParams) < 1.
Proof.
  apply (nonnegative_flux_facts defaultParams (T_init defaultParams)).
  rewrite qUpMean_sum.
  rewrite (sumTo_ext NX _ (fun _ => 0)).
  - rewrite sumTo_zero. unfold Rdiv. lra.
  - intros i Hi. rewrite surfaceT_at, T_init_top by exact Hi. lra.
Defined.

Lemma dy_pos (p : Params) : 0 <= tCover p -> 0 <= tIns p -> 0 < dy p.
Proof.
  intros Hc Hi. pose proof (totalH_ge p Hc Hi). pose proof (INR_NY_minus1 p).
  unfold dy. apply Rdiv_lt_0_compat; lra.
Qed.

Lemma topRow_inner_value (p : Params) (T : list R) (i : nat) :
  length T = (NX * NY p)%nat -> (0 < i < NX - 1)%nat ->
  topRow p T !!! idx i 0 = robinTop p T i.
Proof.
  intros Hl Hi. pose proof (NY_range p) as HNY.
  unfold topRow.
  rewrite !list_lookup_total_insert_ne by (unfold idx, NX in *; lia).
  destruct (topLoop_spec p T) as (_ & _ & Hv).
  rewrite Hv by (rewrite ?Hl; unfold NX in *; lia).
  unfold topValue. rewrite pipeMask_boundary by (unfold NX in *; lia || auto).
  destruct (decide (0%nat ≠ 0%nat)); [congruence|reflexivity].
Qed.

(** X20: with non-negative thicknesses, positive covering and screed
    conductivities and a non-negative film coefficient, the value a
    top-row sweep stores at an inner surface node lies between the air
    temperature and the temperature of the node below it. *)
Theorem top_row_between (p : Params) (T : list R) (i : nat) :
  0 <= tCover p -> 0 <= tIns p ->
  0 < layer_k (cover p) -> 0 < screed_k (screed p) -> 0 <= hTop p ->
  length T = (NX * NY p)%nat -> (0 < i < NX - 1)%nat ->
  Rmin (Tair p) (T !!! idx i 1) <= topRow p T !!! idx i 0
    <= Rmax (Tair p) (T !!! idx i 1).
Proof.
  intros Hc Hi Hkc Hks Hh Hl Hrange.
  rewrite topRow_inner_value by assumption. unfold robinTop.
  assert (Hk : 0 < kRow p !!! 0%nat).
  { rewrite kRow_top by exact Hc. destruct (decide _); assumption. }
  pose proof (dy_pos p Hc Hi) as Hdy.
  assert (Ha : 0 < kRow p !!! 0%nat / dy p) by (apply Rdiv_lt_0_compat; assumption).
  assert (Hheff : 0 <= hEff p).
  { unfold hEff. pose proof (pow_nonneg (JS.max 0 (airVel p)) 0.6). lra. }
  set (a := kRow p !!! 0%nat / dy p) in *. set (h := hEff p) in *.
  set (T1 := T !!! idx i 1). set (Ta := Tair p).
  assert (Hs : 0 < a + h) by lra.
  assert (Hinv : 0 < / (a + h)) by (apply Rinv_0_lt_compat, Hs).
  assert (E : (a * T1 + h * Ta) / (a + h) = T1 + (h * / (a + h)) * (Ta - T1)).
  { field. lra. }
  rewrite E.
  assert (Hw : 0 <= h * / (a + h) <= 1).
  { split; [nra|]. apply Rmult_le_reg_r with (a + h); [exact Hs|].
    rewrite Rmult_assoc, Rinv_l by lra. lra. }
  set (w := h * / (a + h)) in *.
  unfold Rmin, Rmax. destruct (Rle_dec Ta T1); split; nra.
Qed.

Lemma top_row_between_witness :
  Rmin (Tair defaultParams) (T_init defaultParams !!! idx 1 1)
  <= topRow defaultParams (T_init defaultParams) !!! idx 1 0.
Proof.
  apply (top_row_between defaultParams (T_init defaultParams) 1);
    try (unfold tCover, tIns; simpl; lra).
  - apply T_init_length.
  - unfold NX. lia.
Defined.

(** X21: with non-negative thicknesses the top row has the covering's
    conductivity, or the screed's when there is no covering, and the
    bottom row, whose conductivity enters the downward flux, has the
    insulation's conductivity whenever there is insulation. *)
Theorem boundary_row_conductivity (p : Params) :
  0 <= tCover p -> 0 <= tIns p ->
  kRow p !!! 0%nat = (if decide (tCover p = 0) then screed_k (screed p)
                      else layer_k (cover p))
  /\ (0 < tIns p -> kRow p !!! (NY p - 1)%nat = layer_k (insul p))
  /\ (tIns p = 0 -> tUnder p = 0 -> kRow p !!! (NY p - 1)%nat = screed_k (screed p)).
Proof.
  intros Hc Hi. pose proof (NY_range p) as HNY. pose proof (INR_NY_minus1 p) as Hn.
  pose proof (tScreed_ge p) as Hs. pose proof (tUnder_nonneg p) as Hu.
  assert (Hy : INR (NY p - 1) * dy p = totalH p).
  { unfold dy. rewrite minus_INR by lia. simpl. field. lra. }
  split; [apply kRow_top, Hc|]. split.
  - intros Hpos. rewrite kRow_at by lia. rewrite Hy. unfold kAt, totalH, tIns in *.
    repeat match goal with
      | |- context [Rle_dec ?a ?b] => destruct (Rle_dec a b); try lra
      | |- context [Rlt_dec ?a ?b] => destruct (Rlt_dec a b); try lra
      end.
  - intros H0 Hu0. rewrite kRow_at by lia. rewrite Hy.
    unfold kAt, totalH. rewrite H0, Hu0.
    repeat match goal with
      | |- context [Rle_dec ?a ?b] => destruct (Rle_dec a b); try lra
      | |- context [Req_dec_T ?a ?b] => destruct (Req_dec_T a b); try lra
      end.
Qed.

Lemma boundary_row_conductivity_witness :
  kRow defaultParams !!! (NY defaultParams - 1)%nat = 0.035.
Proof.
  destruct (boundary_row_conductivity defaultParams) as (_ & H & _);
    try (unfold tCover, tIns; simpl; lra).
  apply H. unfold tIns. simpl. lra.
Defined.

(** ** Number formatting *)

Lemma trimEnd_spec (s : list ascii) (i e : nat) :
  (i <= e)%nat ->
  let e' := trimEnd s i e in
  (i <= e' <= e)%nat
  /\ (forall k, (e' < k <= e)%nat -> s !! k = Some "0"%char)
  /\ ((i < e')%nat -> s !! e' <> Some "0"%char).
Proof.
  induction e as [|e IH]; intros Hie; simpl.
  - repeat split; intros; lia.
  - destruct (bool_decide_reflect (i < S e)%nat) as [Hlt|Hge]; simpl.
    + destruct (bool_decide_reflect (s !! S e = Some "0"%char)) as [H0|H0].
      * destruct (IH ltac:(lia)) as (A & B & C). split; [lia|]. split; [|exact C].
        intros k Hk. destruct (decide (k = S e)) as [->|Hne]; [exact H0|].
        apply B. lia.
      * split; [lia|]. split; [intros; lia|]. intros _. exact H0.
    + split; [lia|]. split; intros; lia.
Qed.

Lemma indexOfDot_Some (s : list ascii) (i : nat) :
  indexOfDot s = Some i ->
  s !! i = Some "."%char /\ forall k c, s !! k = Some c -> (k < i)%nat -> c <> "."%char.
Proof.
  unfold indexOfDot. destruct (list_find _ s) as [[k c]|] eqn:E; [|discriminate].
  simpl. intros [= <-]. apply list_find_Some in E as (H1 & H2 & H3).
  subst c. split; [exact H1|]. intros k' c' Hk Hlt. apply (H3 k' c' Hk Hlt).
Qed.

Lemma drop_all_zero (s : list ascii) (n : nat) :
  (forall k, (n <= k < length s)%nat -> s !! k = Some "0"%char) ->
  Forall (fun c => c = "0"%char) (drop n s).
Proof.
  intros H. apply Forall_lookup. intros k c Hk.
  rewrite lookup_drop in Hk.
  assert (n + k < length s)%nat by (apply lookup_lt_is_Some; eauto).
  rewrite H in Hk by lia. congruence.
Qed.

(** X22: formatting leaves a rendering without decimal point as it is.
    With a point first at position [i], either nothing but zeros follows
    the point, and exactly the characters before the point are kept; or
    at least one character after the point is kept, only zeros are cut
    from the end, and the result does not end in a zero. *)
Theorem fmt_trims_trailing_zeros (s : list ascii) :
  match indexOfDot s with
  | None => fmtTrim s = s
  | Some i =>
      exists zeros, Forall (fun c => c = "0"%char) zeros
        /\ ((s = fmtTrim s ++ "."%char :: zeros /\ length (fmtTrim s) = i)
            \/ (s = fmtTrim s ++ zeros /\ (i + 1 < length (fmtTrim s))%nat
                /\ last (fmtTrim s) <> Some "0"%char
                /\ fmtTrim s !! i = Some "."%char))
  end.
Proof.
  unfold fmtTrim. destruct (indexOfDot s) as [i|] eqn:Ei; [|reflexivity].
  apply indexOfDot_Some in Ei as [Hdot _].
  assert (Hi : (i < length s)%nat) by (apply lookup_lt_is_Some; eauto).
  destruct (trimEnd_spec s i (length s - 1) ltac:(lia)) as (A & B & C).
  set (e := trimEnd s i (length s - 1)) in *. cbv zeta.
  destruct (decide (e = i)) as [E|E].
  - exists (drop (S i) s). split.
    + apply drop_all_zero. intros k Hk. apply B. lia.
    + left. rewrite E. split; [|rewrite length_take; lia].
      rewrite <- (take_drop i s) at 1. f_equal.
      apply drop_S. exact Hdot.
  - exists (drop (e + 1) s). split.
    + apply drop_all_zero. intros k Hk. apply B. lia.
    + right. split; [symmetry; apply take_drop|].
      split; [rewrite length_take; lia|]. split.
      * rewrite last_lookup, length_take.
        replace (Init.Nat.pred ((e + 1) `min` length s)) with e by lia.
        rewrite lookup_take_lt by lia. apply C. lia.
      * rewrite lookup_take_lt by lia. exact Hdot.
Qed.

Lemma colorMap_valid_witness : colorMap 2 = [220; 0; 0]%Z.
Proof.
  apply (colorMap_valid defaultParams 2 0). right. lra.
Defined.

(** Two renderings: the point goes with the zeros, an inner zero stays. *)
Example fmt_examples :
  fmtTrim ["2"; "."; "0"; "0"; "0"]%char = ["2"]%char
  /\ fmtTrim ["1"; "."; "0"; "5"; "0"]%char = ["1"; "."; "0"; "5"]%char
  /\ fmtTrim ["1"; "0"; "0"]%char = ["1"; "0"; "0"]%char.
Proof. repeat split; reflexivity. Qed.
